(** * Verification of the data-processing script (main.go)

    The development embeds the three operations of [main.go] (analyzeData,
    transformData, aggregateData), their helpers and the dispatching switch
    of [main], and settles the properties stated for them.

    Modelling choices.
    - Go's [int] is a 64-bit two's complement integer: it is a [Z] and every
      arithmetic operation wraps around ([wrap64]).
    - Go's [float64] is kept abstract behind the interface [Float64], which
      lists the operations the program applies to floats.  Two instances are
      given: [binary64] (IEEE 754 binary64, Rocq's primitive floats), which
      is what the program runs on, and [exactQ] (exact rational arithmetic),
      on which the numeric properties are stated.  Everything that depends
      only on the structure of the computation is proved for every instance.
    - A slice is a reference into a store of arrays; the operations run in a
      state and error monad whose state holds the store, the orders in which
      the runtime will iterate maps, and a record of the float divisions
      whose divisor is computed at run time. *)

From Stdlib Require Import ZArith QArith Qround Qminmax Lqa Lia ZifyNat.
From Stdlib Require Import PrimFloat SpecFloat FloatOps.
From stdpp Require Import base gmap list strings sorting.

Local Open Scope string_scope.
Local Open Scope list_scope.
Local Open Scope Z_scope.

(** ** Go's [int] *)

Module GoInt.

Definition int_min : Z := - 2 ^ 63.
Definition int_max : Z := 2 ^ 63 - 1.

Definition in_range (z : Z) : bool := (int_min <=? z) && (z <=? int_max).

(** Two's complement wrap-around to 64 bits. *)
Definition wrap64 (z : Z) : Z := (z + 2 ^ 63) mod 2 ^ 64 - 2 ^ 63.

Definition add (a b : Z) : Z := wrap64 (a + b).
Definition sub (a b : Z) : Z := wrap64 (a - b).
Definition mul (a b : Z) : Z := wrap64 (a * b).

(** [a / b] and [a % b] truncate toward zero; a zero divisor panics, which
    the callers below handle. *)
Definition quot (a b : Z) : Z := wrap64 (Z.quot a b).
Definition rem (a b : Z) : Z := Z.rem a b.


End GoInt.

(** ** The float64 interface *)

Class Float64 (F : Type) : Type := {
  fadd : F -> F -> F;
  fsub : F -> F -> F;
  fmul : F -> F -> F;
  fdiv : F -> F -> F;
  (** [x < y], [x <= y] and [x == y] *)
  flt : F -> F -> bool;
  fle : F -> F -> bool;
  feq : F -> F -> bool;
  (** the conversions [float64(n)] and [int(x)] *)
  of_int : Z -> F;
  to_int : F -> Z
}.

(** IEEE 754 binary64.  [int(x)] truncates toward zero; where the truncated
    value does not fit an [int] (or [x] is NaN or infinite) Go leaves the
    result to the implementation, and the amd64 value (the least [int]) is
    taken here. *)
Module Binary64.

Definition of_int (z : Z) : float :=
  SF2Prim (binary_normalize prec emax z 0 false).

Definition to_int (x : float) : Z :=
  match Prim2SF x with
  | S754_zero _ => 0
  | S754_finite s m e =>
      let a := Z.shiftl (Z.pos m) e in
      let z := if s then - a else a in
      if GoInt.in_range z then z else GoInt.int_min
  | _ => GoInt.int_min
  end.

End Binary64.

#[export] Instance binary64 : Float64 float := {|
  fadd := PrimFloat.add;
  fsub := PrimFloat.sub;
  fmul := PrimFloat.mul;
  fdiv := PrimFloat.div;
  flt := PrimFloat.ltb;
  fle := PrimFloat.leb;
  feq := PrimFloat.eqb;
  of_int := Binary64.of_int;
  to_int := Binary64.to_int
|}.

(** Exact rationals.  There is no rounding, no overflow and no NaN; [x / 0]
    is [0]; [int(x)] truncates toward zero, with the same out-of-range value
    as above. *)
Module ExactQ.

Definition ltb (x y : Q) : bool := negb (Qle_bool y x).

Definition to_int (x : Q) : Z :=
  let z := Z.quot (Qnum x) (Z.pos (Qden x)) in
  if GoInt.in_range z then z else GoInt.int_min.

End ExactQ.

#[export] Instance exactQ : Float64 Q := {|
  fadd := Qplus;
  fsub := Qminus;
  fmul := Qmult;
  fdiv := Qdiv;
  flt := ExactQ.ltb;
  fle := Qle_bool;
  feq := Qeq_bool;
  of_int := inject_Z;
  to_int := ExactQ.to_int
|}.

(** ** Store, slices and the monad of the operations *)

Inductive outcome (A : Type) : Type :=
| Ok (a : A)
| Panic (msg : string)
| OutOfFuel.
Arguments Ok {A} a.
Arguments Panic {A} msg.
Arguments OutOfFuel {A}.

(** A slice header: the array it points into, where it starts there, its
    length and its capacity. *)
Record slice : Type := Slice {
  base : nat;
  off : nat;
  slen : nat;
  scap : nat
}.

(** [len(s)] *)
Definition len (s : slice) : Z := Z.of_nat (slen s).

Section Program.
Context {F : Type} `{Float64 F}.

(** The state a run threads through: the arrays allocated so far, the orders
    in which the coming [range] loops over maps will visit the keys (Go
    leaves the order to the runtime), and the run-time divisions
    [(dividend, divisor)] performed so far. *)
Record state : Type := State {
  heap : list (list F);
  map_orders : list (list string);
  divisions : list (F * F)
}.

Definition M (A : Type) : Type := state -> outcome A * state.

Definition ret {A} (a : A) : M A := fun st => (Ok a, st).

Definition bind {A B} (c : M A) (k : A -> M B) : M B := fun st =>
  match c st with
  | (Ok a, st') => k a st'
  | (Panic msg, st') => (Panic msg, st')
  | (OutOfFuel, st') => (OutOfFuel, st')
  end.

Definition panic {A} (msg : string) : M A := fun st => (Panic msg, st).
Definition out_of_fuel {A} : M A := fun st => (OutOfFuel, st).

Notation "'do' x <- c ; k" := (bind c (fun x => k))
  (at level 10, x pattern, c at level 100, k at level 200).

(** The elements a slice denotes in a store. *)
Definition contents (h : list (list F)) (s : slice) : option (list F) :=
  match h !! base s with
  | Some a =>
      if decide (off s + scap s <= length a)%nat
      then if decide (slen s <= scap s)%nat
           then Some (take (slen s) (drop (off s) a)) else None
      else None
  | None => None
  end.

(** Reading all the elements of [s], as [for _, value := range s] does. *)
Definition read (s : slice) : M (list F) := fun st =>
  match contents (heap st) s with
  | Some vs => (Ok vs, st)
  | None => (Panic "invalid memory address", st)
  end.

(** Overwriting the elements of [s] with [vs] ([length vs = len s]). *)
Definition write (s : slice) (vs : list F) : M unit := fun st =>
  match heap st !! base s with
  | Some a =>
      let a' := take (off s) a ++ vs ++ drop (off s + slen s) a in
      (Ok tt, State (<[base s := a']> (heap st)) (map_orders st) (divisions st))
  | None => (Panic "invalid memory address", st)
  end.

(** [s[i]] *)
Definition index (s : slice) (i : Z) : M F :=
  if (0 <=? i) && (i <? len s) then
    do vs <- read s;
    match vs !! Z.to_nat i with
    | Some x => ret x
    | None => panic "index out of range"
    end
  else panic "index out of range".

(** [s[i:j]] shares the array of [s]. *)
Definition subslice (s : slice) (i j : Z) : M slice :=
  if (0 <=? i) && (i <=? j) && (j <=? Z.of_nat (scap s)) then
    ret (Slice (base s) (off s + Z.to_nat i) (Z.to_nat (j - i))
               (scap s - Z.to_nat i))
  else panic "slice bounds out of range".

(** [make([]float64, n)] allocates a new array of [n] zeros. *)
Definition make (n : Z) : M slice := fun st =>
  if n <? 0 then (Panic "makeslice: len out of range", st)
  else
    let k := Z.to_nat n in
    (Ok (Slice (length (heap st)) 0 k k),
     State (heap st ++ [replicate k (of_int 0)]) (map_orders st) (divisions st)).

(** [copy(dst, src)] copies [min(len(dst), len(src))] elements and returns
    that number. *)
Definition copy (dst src : slice) : M Z :=
  do vs <- read src;
  do old <- read dst;
  let n := Nat.min (slen dst) (slen src) in
  do _ <- write dst (take n vs ++ drop n old);
  ret (Z.of_nat n).

(** A float division whose divisor is computed at run time.  It never
    panics (float division by zero yields an infinity or NaN); the operands
    are recorded. *)
Definition fdiv_rt (x y : F) : M F := fun st =>
  (Ok (fdiv x y),
   State (heap st) (map_orders st) (divisions st ++ [(x, y)])).

(** The entries of [m] in the order the runtime visits them in the next
    [range] loop: the next pending order of the state, when it lists the
    keys of [m], each once; the order of [map_to_list] otherwise.  Every
    order of the keys arises from some state. *)
Definition visit_order {V} (o : list string) (m : gmap string V)
  : list (string * V) :=
  if decide (o ≡ₚ (map_to_list m).*1)
  then omap (fun k => (fun v => (k, v)) <$> m !! k) o
  else map_to_list m.

Definition range_map {V} (m : gmap string V) : M (list (string * V)) :=
  fun st =>
    match map_orders st with
    | [] => (Ok (map_to_list m), st)
    | o :: rest =>
        (Ok (visit_order o m), State (heap st) rest (divisions st))
    end.

(** ** The standard library's [sort.Float64s]

    Sorts the slice in place in increasing order, NaN before any other
    value ([Float64Slice.Less]). *)
Definition isNaN (x : F) : bool := negb (feq x x).

Definition less (x y : F) : bool :=
  flt x y || (isNaN x && negb (isNaN y)).

Fixpoint insert_sorted (x : F) (l : list F) : list F :=
  match l with
  | [] => [x]
  | y :: l' => if less x y then x :: y :: l' else y :: insert_sorted x l'
  end.

Definition sort_list (l : list F) : list F := foldr insert_sorted [] l.

Definition sort_Float64s (s : slice) : M unit :=
  do vs <- read s;
  write s (sort_list vs).

(** ** Results

    The operations return a [map[string]interface{}]; [value] lists the
    kinds of value the program stores in one. *)
#[warnings="-register-all"] Inductive value : Type :=
| VInt (n : Z)
| VFloat (x : F)
| VString (s : string)
| VFloats (xs : list F)
| VMaps (ms : list (gmap string value))
| VCounts (m : gmap string Z)
| VPercentages (m : gmap string F).

(** ** Helper functions *)

Definition roundToTwo (value : F) : F :=
  fdiv (of_int (to_int (fadd (fmul value (of_int 100))
                             (fdiv (of_int 1) (of_int 2)))))
       (of_int 100).

Definition calculateMedian (sortedData : slice) : M F :=
  let n := len sortedData in
  if GoInt.rem n 2 =? 0 then
    do a <- index sortedData (GoInt.sub (GoInt.quot n 2) 1);
    do b <- index sortedData (GoInt.quot n 2);
    ret (fdiv (fadd a b) (of_int 2))
  else index sortedData (GoInt.quot n 2).

Definition processBatch (batch : slice) (batchNum : Z)
  : M (gmap string value) :=
  do values <- read batch;
  let sum := foldl fadd (of_int 0) values in
  do average <- fdiv_rt sum (of_int (len batch));
  ret (<["batch_number" := VInt batchNum]>
       (<["size" := VInt (len batch)]>
       (<["sum" := VFloat (roundToTwo sum)]>
       (<["average" := VFloat (roundToTwo average)]> ∅)))).

Definition findLargestGroup (ranges : gmap string Z) : M string :=
  do entries <- range_map ranges;
  let best :=
    foldl (fun (acc : Z * string) (kv : string * Z) =>
             let (maxCount, maxKey) := acc in
             let (key, count) := kv in
             if count >? maxCount then (count, key) else (maxCount, maxKey))
          (0, "") entries in
  ret (snd best).

(** ** analyzeData *)

Definition analyzeData (data : slice) (batchSize : Z)
  : M (gmap string value) :=
  if len data =? 0 then
    ret (<["error" := VString "no data to analyze"]> ∅)
  else
    do sortedData <- make (len data);
    do _ <- copy sortedData data;
    do _ <- sort_Float64s sortedData;
    do min <- index sortedData 0;
    do max <- index sortedData (GoInt.sub (len sortedData) 1);
    do values <- read data;
    let sum := foldl fadd (of_int 0) values in
    do mean <- fdiv_rt sum (of_int (len data));
    do median <- calculateMedian sortedData;
    do p25 <- index sortedData (GoInt.quot (len sortedData) 4);
    do p75 <- index sortedData (GoInt.quot (GoInt.mul 3 (len sortedData)) 4);
    ret (<["type" := VString "analysis"]>
         (<["count" := VInt (len data)]>
         (<["sum" := VFloat (roundToTwo sum)]>
         (<["mean" := VFloat (roundToTwo mean)]>
         (<["median" := VFloat (roundToTwo median)]>
         (<["min" := VFloat min]>
         (<["max" := VFloat max]>
         (<["range" := VFloat (fsub max min)]>
         (<["percentile_25" := VFloat p25]>
         (<["percentile_75" := VFloat p75]> ∅)))))))))).

(** ** transformData *)

(** The body of the inner loop: one value of the batch. *)
Definition normalize (value : F) : F :=
  let normalized := fmul (fdiv value (of_int 1000)) (of_int 100) in
  let normalized :=
    if flt (of_int 100) normalized then of_int 100 else normalized in
  roundToTwo normalized.

(** The outer loop, from the index [i] on; [fuel] bounds the number of
    iterations. *)
Fixpoint transform_loop (fuel : nat) (data : slice) (batchSize i : Z)
    (transformed : list F) (batches : list (gmap string value))
  : M (list F * list (gmap string value)) :=
  if i <? len data then
    match fuel with
    | O => out_of_fuel
    | S fuel' =>
        let end_ := GoInt.add i batchSize in
        let end_ := if end_ >? len data then len data else end_ in
        do batch <- subslice data i end_;
        do q <- (if batchSize =? 0 then panic "integer divide by zero"
                 else ret (GoInt.quot i batchSize));
        do batchResult <- processBatch batch (GoInt.add q 1);
        let batches := batches ++ [batchResult] in
        do values <- read batch;
        let transformed :=
          foldl (fun acc value => acc ++ [normalize value])
                transformed values in
        transform_loop fuel' data batchSize (GoInt.add i batchSize)
                       transformed batches
    end
  else ret (transformed, batches).

(** Every iteration that does not panic moves [i] forward, so [len(data)]
    iterations are enough fuel ([transform_loop_returns] below). *)
Definition transformData (data : slice) (batchSize : Z)
  : M (gmap string value) :=
  do r <- transform_loop (slen data) data batchSize 0 [] [];
  let (transformed, batches) := r in
  ret (<["type" := VString "transformation"]>
       (<["original_count" := VInt (len data)]>
       (<["transformed" := VFloats transformed]>
       (<["batch_results" := VMaps batches]>
       (<["batches_processed" := VInt (Z.of_nat (length batches))]> ∅))))).

(** ** aggregateData *)

(** [ranges[key]++] *)
Definition incr (key : string) (ranges : gmap string Z) : gmap string Z :=
  <[key := GoInt.add (default 0 (ranges !! key)) 1]> ranges.

(** The [switch] of the counting loop. *)
Definition count_value (ranges : gmap string Z) (value : F)
  : gmap string Z :=
  if fle value (of_int 25) then incr "0-25" ranges
  else if fle value (of_int 50) then incr "26-50" ranges
  else if fle value (of_int 75) then incr "51-75" ranges
  else if fle value (of_int 100) then incr "76-100" ranges
  else incr "100+" ranges.

Definition initial_ranges : gmap string Z :=
  <["0-25" := 0]> (<["26-50" := 0]> (<["51-75" := 0]>
  (<["76-100" := 0]> (<["100+" := 0]> ∅)))).

(** The loop filling [percentages]. *)
Fixpoint percentages_loop (total : Z) (entries : list (string * Z))
    (percentages : gmap string F) : M (gmap string F) :=
  match entries with
  | [] => ret percentages
  | (key, count) :: rest =>
      do q <- fdiv_rt (of_int count) (of_int total);
      percentages_loop total rest
        (<[key := roundToTwo (fmul q (of_int 100))]> percentages)
  end.

Definition aggregateData (data : slice) (batchSize : Z)
  : M (gmap string value) :=
  do values <- read data;
  let ranges := foldl count_value initial_ranges values in
  let total := len data in
  do entries <- range_map ranges;
  do percentages <- percentages_loop total entries ∅;
  do largest <- findLargestGroup ranges;
  ret (<["type" := VString "aggregation"]>
       (<["total_count" := VInt total]>
       (<["ranges" := VCounts ranges]>
       (<["percentages" := VPercentages percentages]>
       (<["largest_group" := VString largest]> ∅))))).

(** ** The dispatching [switch] of [main] *)

Definition dispatch (operation : string) (rawData : slice) (batchSize : Z)
  : M (gmap string value) :=
  if String.eqb operation "analyze" then analyzeData rawData batchSize
  else if String.eqb operation "transform" then transformData rawData batchSize
  else if String.eqb operation "aggregate" then aggregateData rawData batchSize
  else analyzeData rawData batchSize.

End Program.

Arguments state F : clear implicits.
Arguments M F A : clear implicits.
Arguments value F : clear implicits.

(** ** The configuration, the sample data and [main] *)

Section Script.
Context {F : Type} `{Float64 F}.

Local Notation "'do' x <- c ; k" := (bind c (fun x => k))
  (at level 10, x pattern, c at level 100, k at level 200).

(** What [json.Unmarshal] leaves in a [map[string]interface{}]: nil, a
    bool, a float64 (every JSON number), a string, a slice or a map. *)
#[warnings="-register-all"] Inductive json : Type :=
| JNull
| JBool (b : bool)
| JNumber (x : F)
| JString (s : string)
| JArray (items : list json)
| JObject (members : gmap string json).

Definition getInt (config : gmap string json) (key : string)
    (defaultValue : Z) : Z :=
  match config !! key with
  | Some (JNumber floatVal) => to_int floatVal
  | _ => defaultValue
  end.

Definition getString (config : gmap string json) (key : string)
    (defaultValue : string) : string :=
  match config !! key with
  | Some (JString strVal) => strVal
  | _ => defaultValue
  end.

Definition getBool (config : gmap string json) (key : string)
    (defaultValue : bool) : bool :=
  match config !! key with
  | Some (JBool boolVal) => boolVal
  | _ => defaultValue
  end.

(** A literal with one decimal, [m / 10].  Both operands are floats
    exactly, so in binary64 the correctly rounded quotient is the float
    the literal denotes. *)
Definition tenths (m : Z) : F := fdiv (of_int m) (of_int 10).

Definition sample_values : list F :=
  tenths <$>
  [235; 672; 458; 891; 123; 789; 346; 567; 912; 284;
   731; 419; 853; 197; 628; 375; 946; 523; 764; 298;
   687; 432; 879; 156; 594; 821; 387; 715; 263; 648;
   492; 937; 314; 759; 186; 573; 864; 428; 691; 357;
   812; 249; 665; 487; 923; 331; 746; 218; 589; 847].

(** generateSampleData returns a slice over a new array. *)
Definition generateSampleData : M F slice := fun st =>
  (Ok (Slice (length (heap st)) 0 (length sample_values)
             (length sample_values)),
   State (heap st ++ [sample_values]) (map_orders st) (divisions st)).

(** [main] stores one more kind of value in the result than the
    operations do: the bool of ["debug_mode"]. *)
Inductive entry : Type :=
| Computed (v : value F)
| Flag (b : bool).

(** [main], from the parsed configuration on; [now] is the reading of the
    clock, formatted.  Printing is left out. *)
Definition main (config : gmap string json) (now : string)
  : M F (gmap string entry) :=
  let userID := getInt config "user_id" 0 in
  let batchSize := getInt config "batch_size" 10 in
  let operation := getString config "operation" "analyze" in
  let debug := getBool config "debug" false in
  do rawData <- generateSampleData;
  do result <- dispatch operation rawData batchSize;
  let result := Computed <$> result in
  let result := <["user_id" := Computed (VInt userID)]> result in
  let result := <["operation" := Computed (VString operation)]> result in
  let result := <["batch_size" := Computed (VInt batchSize)]> result in
  let result := <["processed_at" := Computed (VString now)]> result in
  let result := <["data_points" := Computed (VInt (len rawData))]> result in
  let result := <["debug_mode" := Flag debug]> result in
  ret result.

End Script.

Arguments json F : clear implicits.
Arguments entry F : clear implicits.

(** * The vocabulary of the properties *)

Section Vocabulary.
Context {F : Type} `{Float64 F}.

(** ** The store is only ever extended

    [grows h0 st]: the arrays of [h0] are still in the store of [st], each
    at its place and with its elements. *)
Definition grows (h0 : list (list F)) (st : state F) : Prop :=
  h0 `prefix_of` heap st.

(** [keeps h0 c Q]: from a store extending [h0], [c] ends (whatever its
    outcome) in a store extending [h0], and a value it returns satisfies
    [Q]. *)
Definition keeps (h0 : list (list F)) {A} (c : M F A) (Q : A -> Prop) : Prop :=
  forall st, grows h0 st ->
    grows h0 (c st).2 /\ forall a, (c st).1 = Ok a -> Q a.

(** The median of a sorted list, as [calculateMedian] reads it off. *)
Definition median_of (sorted : list F) : option F :=
  let n := length sorted in
  if (n mod 2 =? 0)%nat then
    match sorted !! (n / 2 - 1)%nat, sorted !! (n / 2)%nat with
    | Some a, Some b => Some (fdiv (fadd a b) (of_int 2))
    | _, _ => None
    end
  else sorted !! (n / 2)%nat.

(** Lengths for which the index arithmetic of the program does not wrap. *)
Definition fits (n : nat) : Prop := Z.of_nat n < 2 ^ 61.

(** What processBatch returns for a batch holding [batch]. *)
Definition batch_summary (batch : list F) (batchNum : Z)
  : gmap string (value F) :=
  let sum := foldl fadd (of_int 0) batch in
  let average := fdiv sum (of_int (Z.of_nat (length batch))) in
  <["batch_number" := VInt batchNum]>
  (<["size" := VInt (Z.of_nat (length batch))]>
  (<["sum" := VFloat (roundToTwo sum)]>
  (<["average" := VFloat (roundToTwo average)]> ∅))).

(** The run-time division processBatch performs for that batch. *)
Definition batch_division (batch : list F) : F * F :=
  (foldl fadd (of_int 0) batch, of_int (Z.of_nat (length batch))).

(** The [k]-th batch (from 0) of size [b] of a dataset, and their number. *)
Definition batch_at (b : nat) (vs : list F) (k : nat) : list F :=
  take b (drop (k * b) vs).

Definition batch_count (n b : nat) : nat := (n + b - 1) / b.

(** The bucket of a value, by the thresholds 25, 50, 75 and 100. *)
Definition bucket_of (v : F) : string :=
  if fle v (of_int 25) then "0-25"
  else if fle v (of_int 50) then "26-50"
  else if fle v (of_int 75) then "51-75"
  else if fle v (of_int 100) then "76-100"
  else "100+".

Definition buckets : list string :=
  ["0-25"; "26-50"; "51-75"; "76-100"; "100+"].

(** How many values of [vs] fall in bucket [k]. *)
Definition count_in (k : string) (vs : list F) : nat :=
  length (filter (fun v => bucket_of v = k) vs).

(** [ranges[k]], zero for a missing key. *)
Definition count_of (ranges : gmap string Z) (k : string) : Z :=
  default 0 (ranges !! k).

(** The entries the next [range] loop visits, in order. *)
Definition next_entries {V} (os : list (list string)) (m : gmap string V)
  : list (string * V) :=
  match os with
  | [] => map_to_list m
  | o :: _ => visit_order o m
  end.

Definition percentage (total count : Z) : F :=
  roundToTwo (fmul (fdiv (of_int count) (of_int total)) (of_int 100)).

Definition largest_step (acc : Z * string) (kv : string * Z) : Z * string :=
  let (maxCount, maxKey) := acc in
  let (key, count) := kv in
  if count >? maxCount then (count, key) else (maxCount, maxKey).

Definition largest_of (entries : list (string * Z)) : string :=
  snd (foldl largest_step (0, "") entries).



(** [returns c]: [c] never stops for want of fuel. *)
Definition returns {A} (c : M F A) : Prop :=
  forall st, (c st).1 <> OutOfFuel.

End Vocabulary.

(** Stores holding one dataset, for the properties at concrete inputs. *)
Module Datasets.

(** A store holding one dataset, the slice of the whole of it, and datasets
    of integral values in binary64. *)
Definition store {F} (vs : list F) (orders : list (list string)) : state F :=
  State [vs] orders [].

Definition whole {F} (vs : list F) : slice :=
  Slice 0 0 (length vs) (length vs).

Definition floats (l : list Z) : list float := Binary64.of_int <$> l.

Definition sample : list float := floats [5; 30; 60; 90; 150].

End Datasets.

Section FurtherVocabulary.
Context {F : Type} `{Float64 F}.

(** [untouched c]: whatever its outcome, [c] leaves the store as it was. *)
Definition untouched {A} (c : M F A) : Prop :=
  forall st, heap (c st).2 = heap st.

(** The float interface returns an [int] from every conversion. *)
Definition int_valued : Prop :=
  forall x : F, GoInt.in_range (to_int x) = true.

(** The fields [main] adds to the result of the operation. *)
Definition metadata_keys : list string :=
  ["user_id"; "operation"; "batch_size"; "processed_at"; "data_points";
   "debug_mode"].

End FurtherVocabulary.

(** * Properties *)

(** Linear arithmetic with division and remainder by constants. *)
Ltac divlia := zify; Z.to_euclidean_division_equations; lia.

(** Looking a field up in a map built by a chain of inserts. *)
Ltac lookup_field :=
  repeat (rewrite lookup_insert_ne by done); rewrite lookup_insert_eq.

(** ** Running the monad *)

Section Steps.
Context {F : Type} `{Float64 F}.

Lemma wrap64_id z :
  GoInt.int_min <= z <= GoInt.int_max -> GoInt.wrap64 z = z.
Proof.
  unfold GoInt.wrap64, GoInt.int_min, GoInt.int_max. intros Hz.
  rewrite Z.mod_small; lia.
Qed.

Lemma bind_ok {A B} (c : M F A) (k : A -> M F B) st a st' :
  c st = (Ok a, st') -> bind c k st = k a st'.
Proof. intros Hc. unfold bind. by rewrite Hc. Qed.

Lemma contents_length (h : list (list F)) s vs : contents h s = Some vs -> length vs = slen s.
Proof.
  unfold contents. intros Hc.
  destruct (h !! base s) as [a|]; [|done].
  repeat case_decide; simplify_eq.
  rewrite length_take, length_drop. lia.
Qed.

Lemma contents_base (h : list (list F)) s vs : contents h s = Some vs -> (base s < length h)%nat.
Proof.
  unfold contents. intros Hc.
  destruct (h !! base s) as [a|] eqn:Ha; [|done].
  by apply lookup_lt_Some in Ha.
Qed.

Lemma contents_app (h k : list (list F)) s vs :
  contents h s = Some vs -> contents (h ++ k) s = Some vs.
Proof.
  intros Hc. pose proof (contents_base _ _ _ Hc) as Hb.
  unfold contents in *. by rewrite lookup_app_l.
Qed.

Lemma read_ok s (st : state F) vs :
  contents (heap st) s = Some vs -> read s st = (Ok vs, st).
Proof. intros Hc. unfold read. by rewrite Hc. Qed.

Lemma index_ok s (st : state F) vs (i : nat) x :
  contents (heap st) s = Some vs -> vs !! i = Some x ->
  index s (Z.of_nat i) st = (Ok x, st).
Proof.
  intros Hc Hx. unfold index, len.
  pose proof (contents_length _ _ _ Hc) as Hl.
  apply lookup_lt_Some in Hx as Hi.
  replace ((0 <=? Z.of_nat i) && (Z.of_nat i <? Z.of_nat (slen s))) with true
    by (symmetry; apply andb_true_intro; split; [apply Z.leb_le|apply Z.ltb_lt]; lia).
  rewrite (bind_ok _ _ _ _ _ (read_ok _ _ _ Hc)).
  by rewrite Nat2Z.id, Hx.
Qed.



Lemma keeps_ret (h0 : list (list F)) {A} (a : A) (Q : A -> Prop) : Q a -> keeps h0 (ret a) Q.
Proof. intros Ha st Hst. split; [done|]. cbn. by intros ? [= <-]. Qed.

Lemma keeps_panic (h0 : list (list F)) {A} msg (Q : A -> Prop) : keeps h0 (panic msg) Q.
Proof. intros st Hst. split; [done|]. cbn. by intros ? [=]. Qed.

Lemma keeps_bind (h0 : list (list F)) {A B} (c : M F A) (k : A -> M F B) Q Q' :
  keeps h0 c Q -> (forall a, Q a -> keeps h0 (k a) Q') ->
  keeps h0 (bind c k) Q'.
Proof.
  intros Hc Hk st Hst. destruct (Hc st Hst) as [Hg Hq].
  unfold bind. destruct (c st) as [[a| |] st']; cbn in *.
  - apply (Hk a); auto.
  - split; [done|]. by intros ? [=].
  - split; [done|]. by intros ? [=].
Qed.

Lemma keeps_weaken (h0 : list (list F)) {A} (c : M F A) (Q Q' : A -> Prop) :
  keeps h0 c Q -> (forall a, Q a -> Q' a) -> keeps h0 c Q'.
Proof. intros Hc HQ st Hst. destruct (Hc st Hst). split; auto. Qed.

Lemma keeps_read (h0 : list (list F)) s : keeps h0 (read s) (fun _ => True).
Proof.
  intros st Hst. unfold read.
  destruct (contents (heap st) s); split; cbn; auto.
Qed.

Lemma keeps_index (h0 : list (list F)) s i : keeps h0 (index s i) (fun _ => True).
Proof.
  unfold index. destruct (_ && _); [|apply keeps_panic].
  eapply keeps_bind; [apply keeps_read|]. intros vs _.
  destruct (vs !! Z.to_nat i); [by apply keeps_ret|apply keeps_panic].
Qed.

Lemma keeps_fdiv_rt (h0 : list (list F)) x y : keeps h0 (fdiv_rt x y) (fun _ => True).
Proof. intros st Hst. split; cbn; auto. Qed.

Lemma keeps_range_map (h0 : list (list F)) {V} (m : gmap string V) :
  keeps h0 (range_map m) (fun _ => True).
Proof.
  intros st Hst. unfold range_map.
  destruct (map_orders st); split; cbn; auto.
Qed.

Lemma keeps_make (h0 : list (list F)) n :
  keeps h0 (make n) (fun s => (length h0 <= base s)%nat).
Proof.
  intros st Hst. unfold make. destruct (n <? 0); cbn.
  - split; [done|]. by intros ? [=].
  - split.
    + unfold grows in *. cbn. by apply prefix_app_r.
    + intros a [= <-]. cbn. by apply prefix_length.
Qed.

(** Writing through a slice whose array was allocated after [h0]. *)
Lemma keeps_write (h0 : list (list F)) s vs :
  (length h0 <= base s)%nat -> keeps h0 (write s vs) (fun _ => True).
Proof.
  intros Hb st Hst. unfold write.
  destruct (heap st !! base s) as [a|] eqn:Ha; cbn; [|by split].
  split; [|done]. destruct Hst as [k Hk]. unfold grows.
  rewrite Hk. rewrite insert_app_r_alt by done. by apply prefix_app_r.
Qed.

Lemma keeps_copy (h0 : list (list F)) dst src :
  (length h0 <= base dst)%nat -> keeps h0 (copy dst src) (fun _ => True).
Proof.
  intros Hb. unfold copy.
  eapply keeps_bind; [apply keeps_read|]. intros vs _.
  eapply keeps_bind; [apply keeps_read|]. intros old _.
  eapply keeps_bind; [by apply keeps_write|]. intros _ _.
  by apply keeps_ret.
Qed.

Lemma keeps_sort_Float64s (h0 : list (list F)) s :
  (length h0 <= base s)%nat -> keeps h0 (sort_Float64s s) (fun _ => True).
Proof.
  intros Hb. unfold sort_Float64s.
  eapply keeps_bind; [apply keeps_read|]. intros vs _.
  by apply keeps_write.
Qed.

Lemma keeps_calculateMedian (h0 : list (list F)) s :
  keeps h0 (calculateMedian s) (fun _ => True).
Proof.
  unfold calculateMedian. destruct (_ =? _); [|apply keeps_index].
  eapply keeps_bind; [apply keeps_index|]. intros a _.
  eapply keeps_bind; [apply keeps_index|]. intros b _.
  by apply keeps_ret.
Qed.

Lemma keeps_analyzeData (h0 : list (list F)) data batchSize :
  keeps h0 (analyzeData data batchSize) (fun _ => True).
Proof.
  unfold analyzeData. destruct (_ =? _); [by apply keeps_ret|].
  eapply keeps_bind; [apply keeps_make|]. intros sortedData Hb.
  eapply keeps_bind; [by apply keeps_copy|]. intros _ _.
  eapply keeps_bind; [by apply keeps_sort_Float64s|]. intros _ _.
  eapply keeps_bind; [apply keeps_index|]. intros mn _.
  eapply keeps_bind; [apply keeps_index|]. intros mx _.
  eapply keeps_bind; [apply keeps_read|]. intros values _.
  eapply keeps_bind; [apply keeps_fdiv_rt|]. intros mean _.
  eapply keeps_bind; [apply keeps_calculateMedian|]. intros median _.
  eapply keeps_bind; [apply keeps_index|]. intros p25 _.
  eapply keeps_bind; [apply keeps_index|]. intros p75 _.
  by apply keeps_ret.
Qed.

(** ** The sorted copy of analyzeData *)

Lemma insert_sorted_perm (x : F) l : insert_sorted x l ≡ₚ x :: l.
Proof.
  induction l as [|y l IH]; cbn; [done|].
  destruct (less x y); [done|]. rewrite IH. apply Permutation_swap.
Qed.

Lemma sort_list_perm (l : list F) : sort_list l ≡ₚ l.
Proof.
  induction l as [|x l IH]; cbn; [done|].
  rewrite insert_sorted_perm. by rewrite IH.
Qed.

Lemma sort_list_length (l : list F) : length (sort_list l) = length l.
Proof. by rewrite sort_list_perm. Qed.

Lemma contents_fresh (h : list (list F)) a n :
  length a = n -> contents (h ++ [a]) (Slice (length h) 0 n n) = Some a.
Proof.
  intros Ha. unfold contents. cbn.
  rewrite lookup_app_r, Nat.sub_diag by lia. cbn.
  repeat case_decide; try lia.
  rewrite drop_0, firstn_all2 by lia. done.
Qed.

Lemma make_ok (st : state F) (n : nat) :
  make (Z.of_nat n) st =
  (Ok (Slice (length (heap st)) 0 n n),
   State (heap st ++ [replicate n (of_int 0)]) (map_orders st) (divisions st)).
Proof.
  unfold make. replace (Z.of_nat n <? 0) with false by (symmetry; apply Z.ltb_ge; lia).
  by rewrite Nat2Z.id.
Qed.

Lemma write_fresh (h : list (list F)) os ds a vs n :
  length a = n ->
  write (Slice (length h) 0 n n) vs (State (h ++ [a]) os ds) =
  (Ok tt, State (h ++ [vs]) os ds).
Proof.
  intros Ha. unfold write. cbn.
  rewrite lookup_app_r, Nat.sub_diag by lia. cbn.
  rewrite drop_ge, app_nil_r by lia.
  rewrite insert_app_r_alt, Nat.sub_diag by lia. done.
Qed.

Lemma copy_fresh (h : list (list F)) os ds a data vs :
  contents h data = Some vs -> length a = slen data ->
  copy (Slice (length h) 0 (slen data) (slen data)) data (State (h ++ [a]) os ds) =
  (Ok (len data), State (h ++ [vs]) os ds).
Proof.
  intros Hc Ha. unfold copy.
  pose proof (contents_length _ _ _ Hc) as Hl.
  rewrite (bind_ok _ _ _ vs (State (h ++ [a]) os ds))
    by (apply read_ok; cbn; by apply contents_app).
  rewrite (bind_ok _ _ _ a (State (h ++ [a]) os ds))
    by (apply read_ok; cbn; by apply contents_fresh).
  cbn [slen]. rewrite Nat.min_id.
  rewrite firstn_all2, drop_ge, app_nil_r by lia.
  rewrite (bind_ok _ _ _ tt (State (h ++ [vs]) os ds)) by (by apply write_fresh).
  done.
Qed.

Lemma sort_fresh (h : list (list F)) os ds vs n :
  length vs = n ->
  sort_Float64s (Slice (length h) 0 n n) (State (h ++ [vs]) os ds) =
  (Ok tt, State (h ++ [sort_list vs]) os ds).
Proof.
  intros Hl. unfold sort_Float64s.
  rewrite (bind_ok _ _ _ vs (State (h ++ [vs]) os ds))
    by (apply read_ok; cbn; by apply contents_fresh).
  by apply write_fresh.
Qed.



Lemma fits_int (n : nat) : fits n -> Z.of_nat n <= GoInt.int_max.
Proof. unfold fits, GoInt.int_max. lia. Qed.

Lemma quot_of_nat (n k : nat) :
  Z.of_nat n <= GoInt.int_max -> (0 < k)%nat ->
  GoInt.quot (Z.of_nat n) (Z.of_nat k) = Z.of_nat (n / k).
Proof.
  unfold GoInt.quot. intros Hn Hk.
  rewrite Z.quot_div_nonneg by lia. rewrite <- Nat2Z.inj_div.
  apply wrap64_id. unfold GoInt.int_min, GoInt.int_max in *.
  assert (n / k <= n)%nat by (apply Nat.Div0.div_le_upper_bound; nia). lia.
Qed.

Lemma index_at s (st : state F) vs (k : nat) (i : Z) x :
  contents (heap st) s = Some vs -> vs !! k = Some x -> i = Z.of_nat k ->
  index s i st = (Ok x, st).
Proof. intros Hc Hx ->. by apply (index_ok _ _ vs). Qed.

Lemma calculateMedian_ok s (st : state F) sorted m :
  contents (heap st) s = Some sorted -> fits (length sorted) ->
  median_of sorted = Some m ->
  calculateMedian s st = (Ok m, st).
Proof.
  intros Hc Hfit Hm. unfold calculateMedian, median_of, len in *.
  pose proof (contents_length _ _ _ Hc) as Hl. rewrite <- Hl.
  set (n := length sorted) in *.
  replace (GoInt.rem (Z.of_nat n) 2 =? 0) with (n mod 2 =? 0)%nat.
  2:{ unfold GoInt.rem. rewrite Z.rem_mod_nonneg by lia.
      change 2 with (Z.of_nat 2). rewrite <- Nat2Z.inj_mod.
      destruct (Nat.eqb_spec (n mod 2) 0) as [->|Hne]; [done|].
      symmetry. apply Z.eqb_neq. lia. }
  change 2 with (Z.of_nat 2).
  rewrite quot_of_nat by (by apply fits_int || lia).
  destruct (n mod 2 =? 0)%nat eqn:Hpar.
  - destruct (sorted !! (n / 2 - 1)%nat) as [a|] eqn:Ha; [|done].
    destruct (sorted !! (n / 2)%nat) as [b|] eqn:Hb; [|done].
    injection Hm as <-.
    assert (0 < n / 2)%nat.
    { apply Nat.eqb_eq in Hpar. pose proof (lookup_lt_Some _ _ _ Hb) as Hlt.
      fold n in Hlt. destruct (Nat.eq_dec n 1%nat) as [Hn1|Hn1].
      - rewrite Hn1 in Hpar. cbn in Hpar. lia.
      - apply Nat.div_str_pos. lia. }
    replace (GoInt.sub (Z.of_nat (n / 2)) 1) with (Z.of_nat (n / 2 - 1)).
    2:{ unfold GoInt.sub. rewrite wrap64_id; [lia|].
        unfold fits, GoInt.int_min, GoInt.int_max in *.
        assert (n / 2 <= n)%nat by (apply Nat.Div0.div_le_upper_bound; lia). lia. }
    rewrite (bind_ok _ _ _ _ _ (index_ok _ _ _ _ _ Hc Ha)).
    rewrite (bind_ok _ _ _ _ _ (index_ok _ _ _ _ _ Hc Hb)).
    done.
  - by apply (index_ok _ _ sorted).
Qed.

(** What analyzeData returns and leaves behind on a non-empty dataset. *)
Lemma analyzeData_run (st : state F) data batchSize vs mn mx md p25 p75 :
  contents (heap st) data = Some vs -> vs <> [] -> fits (length vs) ->
  sort_list vs !! 0%nat = Some mn ->
  sort_list vs !! (length vs - 1)%nat = Some mx ->
  median_of (sort_list vs) = Some md ->
  sort_list vs !! (length vs / 4)%nat = Some p25 ->
  sort_list vs !! (3 * length vs / 4)%nat = Some p75 ->
  analyzeData data batchSize st =
  (Ok (<["type" := VString "analysis"]>
       (<["count" := VInt (Z.of_nat (length vs))]>
       (<["sum" := VFloat (roundToTwo (foldl fadd (of_int 0) vs))]>
       (<["mean" := VFloat (roundToTwo
            (fdiv (foldl fadd (of_int 0) vs) (of_int (Z.of_nat (length vs)))))]>
       (<["median" := VFloat (roundToTwo md)]>
       (<["min" := VFloat mn]>
       (<["max" := VFloat mx]>
       (<["range" := VFloat (fsub mx mn)]>
       (<["percentile_25" := VFloat p25]>
       (<["percentile_75" := VFloat p75]> ∅)))))))))),
   State (heap st ++ [sort_list vs]) (map_orders st)
         (divisions st ++
          [(foldl fadd (of_int 0) vs, of_int (Z.of_nat (length vs)))])).
Proof.
  intros Hc Hne Hfit Hmn Hmx Hmd H25 H75.
  pose proof (contents_length _ _ _ Hc) as Hl.
  assert (0 < length vs)%nat as Hpos by (destruct vs; [done|cbn; lia]).
  unfold analyzeData, len. rewrite <- Hl.
  set (n := length vs) in *.
  replace (Z.of_nat n =? 0) with false by (symmetry; apply Z.eqb_neq; lia).
  destruct st as [h os ds]. cbn [heap map_orders divisions] in *.
  rewrite (bind_ok _ _ _ _ _ (make_ok _ n)). cbn [heap map_orders divisions].
  assert (copy (Slice (length h) 0 n n) data
            (State (h ++ [replicate n (of_int 0)]) os ds) =
          (Ok (len data), State (h ++ [vs]) os ds)) as Hcopy.
  { rewrite Hl. apply copy_fresh; [done|]. by rewrite length_replicate. }
  rewrite (bind_ok _ _ _ _ _ Hcopy).
  rewrite (bind_ok _ _ _ _ _ (sort_fresh h os ds vs n eq_refl)).
  set (st3 := State (h ++ [sort_list vs]) os ds).
  assert (contents (heap st3) (Slice (length h) 0 n n) = Some (sort_list vs))
    as Hs by (apply contents_fresh, sort_list_length).
  assert (fits (length (sort_list vs))) as Hfit'
    by (by rewrite sort_list_length).
  rewrite (bind_ok _ _ _ _ _ (index_at _ _ _ 0%nat _ _ Hs Hmn eq_refl)).
  assert (GoInt.sub (Z.of_nat n) 1 = Z.of_nat (n - 1)) as Hsub.
  { unfold GoInt.sub. rewrite wrap64_id; [lia|].
    unfold fits, GoInt.int_min, GoInt.int_max in *. lia. }
  cbn [slen].
  rewrite (bind_ok _ _ _ _ _ (index_at _ _ _ _ _ _ Hs Hmx Hsub)).
  assert (contents (heap st3) data = Some vs) as Hd
    by (cbn; by apply contents_app).
  rewrite (bind_ok _ _ _ _ _ (read_ok _ _ _ Hd)).
  unfold bind at 1. cbn [fdiv_rt heap map_orders divisions st3].
  set (st4 := State _ _ _).
  assert (contents (heap st4) (Slice (length h) 0 n n) = Some (sort_list vs))
    as Hs4 by apply Hs.
  rewrite (bind_ok _ _ _ _ _ (calculateMedian_ok _ _ _ _ Hs4 Hfit' Hmd)).
  assert (GoInt.quot (Z.of_nat n) 4 = Z.of_nat (n / 4)) as Hq4.
  { change 4 with (Z.of_nat 4). apply quot_of_nat; [by apply fits_int|lia]. }
  rewrite (bind_ok _ _ _ _ _ (index_at _ _ _ _ _ _ Hs4 H25 Hq4)).
  assert (GoInt.quot (GoInt.mul 3 (Z.of_nat n)) 4 = Z.of_nat (3 * n / 4))
    as Hq34.
  { unfold GoInt.mul. rewrite wrap64_id
      by (unfold fits, GoInt.int_min, GoInt.int_max in *; lia).
    change 4 with (Z.of_nat 4). change 3 with (Z.of_nat 3).
    rewrite <- Nat2Z.inj_mul. apply quot_of_nat; [|lia].
    unfold fits, GoInt.int_max in *. lia. }
  rewrite (bind_ok _ _ _ _ _ (index_at _ _ _ _ _ _ Hs4 H75 Hq34)).
  done.
Qed.

End Steps.

(** ** Exact arithmetic: order and rounding *)

Section ExactArithmetic.
Local Open Scope Q_scope.

Lemma less_exact (x y : Q) : less x y = true <-> x < y.
Proof.
  unfold less, isNaN. cbn. unfold ExactQ.ltb.
  rewrite (proj2 (Qeq_bool_iff x x)) by reflexivity. cbn.
  rewrite orb_false_r, negb_true_iff.
  split.
  - intros Hb. apply Qnot_le_lt. intros Hle.
    apply Qle_bool_iff in Hle. congruence.
  - intros Hlt. destruct (Qle_bool y x) eqn:Hb; [|done].
    apply Qle_bool_iff in Hb. exfalso. by apply (Qlt_not_le x y).
Qed.

Lemma insert_sorted_exact (x : Q) l :
  StronglySorted Qle l -> StronglySorted Qle (insert_sorted x l).
Proof.
  induction 1 as [|y l Hl IH Hy]; cbn.
  - repeat constructor.
  - destruct (less x y) eqn:Hxy.
    + apply less_exact in Hxy. constructor; [by constructor|].
      constructor; [by apply Qlt_le_weak|].
      eapply Forall_impl; [exact Hy|]. intros z Hz. cbn in Hz.
      apply Qlt_le_weak. by apply (Qlt_le_trans _ y).
    + constructor; [done|]. rewrite insert_sorted_perm.
      constructor; [|done].
      apply Qnot_lt_le. intros Hlt. apply less_exact in Hlt. congruence.
Qed.

Lemma sort_list_exact (l : list Q) : StronglySorted Qle (sort_list l).
Proof.
  induction l as [|x l IH]; cbn; [constructor|].
  by apply insert_sorted_exact.
Qed.

Lemma sorted_lookup_le (l : list Q) (i j : nat) x y :
  StronglySorted Qle l -> (i <= j)%nat ->
  l !! i = Some x -> l !! j = Some y -> x <= y.
Proof.
  intros Hl. revert i j. induction Hl as [|z l Hl IH Hz]; intros i j Hij Hx Hy.
  - done.
  - destruct i as [|i], j as [|j]; cbn in *; simplify_eq.
    + apply Qle_refl.
    + rewrite Forall_forall in Hz. apply Hz.
      eapply list_elem_of_lookup_2. exact Hy.
    + lia.
    + apply (IH i j); [lia|done..].
Qed.

(** Truncation toward zero stays within one unit, on the side of zero. *)
Lemma trunc_bounds (y : Q) :
  let t := inject_Z (Z.quot (Qnum y) (Z.pos (Qden y))) in
  y - 1 < t /\ t < y + 1.
Proof.
  destruct y as [n d]. cbn. unfold Qlt. cbn.
  pose proof (Z.quot_rem' n (Z.pos d)) as Hqr.
  destruct (Z.le_gt_cases 0 n) as [Hn|Hn].
  - pose proof (Z.rem_bound_pos n (Z.pos d) Hn ltac:(lia)). nia.
  - pose proof (Z.rem_bound_pos_neg n (Z.pos d) ltac:(lia) ltac:(lia)). nia.
Qed.

(** The distance between a value and its rounding, when the scaled value
    fits an [int]. *)
Lemma roundToTwo_exact_bounds (x : Q) :
  - inject_Z (2 ^ 56) <= x <= inject_Z (2 ^ 56) ->
  x - (1 # 200) < roundToTwo x /\ roundToTwo x < x + (3 # 200).
Proof.
  intros [Hlo Hhi]. unfold roundToTwo. cbn. unfold ExactQ.to_int.
  change (inject_Z 1 / inject_Z 2) with (1 # 2).
  change (inject_Z 100) with (100 # 1).
  change (inject_Z (2 ^ 56)) with (72057594037927936 # 1) in *.
  set (y := x * (100 # 1) + (1 # 2)).
  destruct (trunc_bounds y) as [Ht1 Ht2]. cbn zeta in *.
  set (t := Z.quot (Qnum y) (Z.pos (Qden y))) in *.
  assert (GoInt.in_range t = true) as ->.
  { unfold GoInt.in_range, GoInt.int_min, GoInt.int_max.
    apply andb_true_intro. rewrite Z.leb_le, Z.leb_le.
    assert (inject_Z (- 2 ^ 63) < inject_Z t) as H1.
    { eapply Qle_lt_trans; [|exact Ht1]. unfold y.
      change (inject_Z (- 2 ^ 63)) with (-9223372036854775808 # 1). lra. }
    assert (inject_Z t < inject_Z (2 ^ 63)) as H2.
    { eapply Qlt_le_trans; [exact Ht2|]. unfold y.
      change (inject_Z (2 ^ 63)) with (9223372036854775808 # 1). lra. }
    rewrite <- Zlt_Qlt in H1, H2. lia. }
  unfold y in *. unfold Qdiv. change (/ (100 # 1)) with (1 # 100).
  split; lra.
Qed.

End ExactArithmetic.

(** ** analyzeData *)

Section Analyze.
Local Open Scope Q_scope.

Lemma median_of_defined (sorted : list Q) :
  sorted <> [] ->
  exists m, median_of sorted = Some m /\
    forall lo hi, sorted !! 0%nat = Some lo ->
      sorted !! (length sorted - 1)%nat = Some hi ->
      StronglySorted Qle sorted -> lo <= m <= hi.
Proof.
  intros Hne. unfold median_of. set (n := length sorted).
  assert (0 < n)%nat as Hpos by (subst n; destruct sorted; [done|cbn; lia]).
  assert (n / 2 < n)%nat as Hhalf by (apply Nat.div_lt; lia).
  destruct (lookup_lt_is_Some_2 sorted (n / 2) Hhalf) as [b Hb].
  destruct (n mod 2 =? 0)%nat.
  - destruct (lookup_lt_is_Some_2 sorted (n / 2 - 1)) as [a Ha]; [fold n; lia|].
    rewrite Ha, Hb. eexists; split; [done|].
    intros lo hi Hlo Hhi Hs. cbn. unfold Qdiv.
    change (/ inject_Z 2) with (1 # 2).
    pose proof (sorted_lookup_le _ 0 (n / 2 - 1) _ _ Hs ltac:(lia) Hlo Ha).
    pose proof (sorted_lookup_le _ 0 (n / 2) _ _ Hs ltac:(lia) Hlo Hb).
    pose proof (sorted_lookup_le _ (n / 2 - 1) (n - 1) _ _ Hs ltac:(lia) Ha Hhi).
    pose proof (sorted_lookup_le _ (n / 2) (n - 1) _ _ Hs ltac:(lia) Hb Hhi).
    split; lra.
  - rewrite Hb. eexists; split; [done|].
    intros lo hi Hlo Hhi Hs. split.
    + apply (sorted_lookup_le _ 0 (n / 2) _ _ Hs ltac:(lia) Hlo Hb).
    + apply (sorted_lookup_le _ (n / 2) (n - 1) _ _ Hs ltac:(lia) Hb Hhi).
Qed.


End Analyze.



Section AnalyzeAny.
Context {F : Type} `{Float64 F}.

(** C2.  On the empty dataset analyzeData returns normally a result whose
    one and only field is ["error"], holding "no data to analyze"; the state
    is left as it was. *)
Theorem analyze_empty_dataset (st : state F) (b o c : nat) (batchSize : Z) :
  exists r,
    analyzeData (Slice b o 0 c) batchSize st = (Ok r, st) /\
    r !! "error" = Some (VString "no data to analyze") /\
    dom r = {["error"]} /\
    size r = 1%nat.
Proof.
  eexists. split; [reflexivity|]. split; [by rewrite lookup_insert_eq|].
  split.
  - rewrite dom_insert_L, dom_empty_L. set_solver.
  - rewrite map_size_insert_None by apply lookup_empty.
    by rewrite map_size_empty.
Qed.

(** C3.  Whatever the dataset and whatever the outcome, analyzeData leaves
    every array that was in the store before the call as it was: it only
    adds the array of its sorted copy.  In particular the caller's slice
    denotes the same elements in the same order after the call. *)
Theorem analyze_keeps_dataset (st : state F) data (batchSize : Z) :
  heap st `prefix_of` heap (analyzeData data batchSize st).2 /\
  (forall l a, heap st !! l = Some a ->
     heap (analyzeData data batchSize st).2 !! l = Some a) /\
  (forall vs, contents (heap st) data = Some vs ->
     contents (heap (analyzeData data batchSize st).2) data = Some vs).
Proof.
  assert (grows (heap st) st) as Hst by (exists []; by rewrite app_nil_r).
  destruct (keeps_analyzeData (heap st) data batchSize st Hst) as [[k Hk] _].
  split; [by exists k|]. split.
  - intros l a Hl. rewrite Hk. by apply lookup_app_l_Some.
  - intros vs Hc. rewrite Hk. by apply contents_app.
Qed.

End AnalyzeAny.

(** ** transformData *)

Section Transform.
Context {F : Type} `{Float64 F}.


Lemma processBatch_ok batch (st : state F) vals batchNum :
  contents (heap st) batch = Some vals ->
  processBatch batch batchNum st =
  (Ok (batch_summary vals batchNum),
   State (heap st) (map_orders st) (divisions st ++ [batch_division vals])).
Proof.
  intros Hc. unfold processBatch.
  rewrite (bind_ok _ _ _ _ _ (read_ok _ _ _ Hc)).
  unfold len. rewrite <- (contents_length _ _ _ Hc). reflexivity.
Qed.

Lemma contents_subslice (h : list (list F)) s vs (i j : nat) :
  contents h s = Some vs -> (i <= j <= slen s)%nat ->
  contents h (Slice (base s) (off s + i) (j - i) (scap s - i)) =
  Some (take (j - i) (drop i vs)).
Proof.
  unfold contents. cbn. intros Hc Hij.
  destruct (h !! base s) as [a|]; [|done].
  repeat case_decide; try done; try lia.
  injection Hc as <-. f_equal.
  rewrite skipn_firstn_comm, take_take, drop_drop.
  f_equal. lia.
Qed.

Lemma subslice_ok s (st : state F) vs (i j : nat) :
  contents (heap st) s = Some vs -> (i <= j <= slen s)%nat ->
  subslice s (Z.of_nat i) (Z.of_nat j) st =
  (Ok (Slice (base s) (off s + i) (j - i) (scap s - i)), st).
Proof.
  intros Hc Hij. unfold subslice.
  assert (slen s <= scap s)%nat.
  { unfold contents in Hc. destruct (heap st !! base s); [|done].
    repeat case_decide; done. }
  replace ((0 <=? Z.of_nat i) && (Z.of_nat i <=? Z.of_nat j) &&
           (Z.of_nat j <=? Z.of_nat (scap s))) with true.
  2:{ symmetry. rewrite !andb_true_iff, !Z.leb_le. lia. }
  rewrite <- Nat2Z.inj_sub, !Nat2Z.id by lia. reflexivity.
Qed.

Lemma foldl_normalize (acc vals : list F) :
  foldl (fun acc value => acc ++ [normalize value]) acc vals =
  acc ++ (normalize <$> vals).
Proof.
  revert acc. induction vals as [|v vals IH]; intros acc; cbn.
  - by rewrite app_nil_r.
  - rewrite IH. by rewrite <- app_assoc.
Qed.

Lemma batch_count_gt (n b k : nat) :
  (0 < b)%nat -> (k * b < n)%nat -> (k < batch_count n b)%nat.
Proof.
  intros Hb Hk. unfold batch_count.
  apply (Nat.div_le_lower_bound (n + b - 1) b (S k)); lia.
Qed.

Lemma batch_count_le (n b k : nat) :
  (0 < b)%nat -> (n <= k * b)%nat -> (batch_count n b <= k)%nat.
Proof.
  intros Hb Hk. unfold batch_count.
  destruct (Nat.eq_dec k 0%nat) as [->|Hk0].
  - replace n with 0%nat by lia. cbn. rewrite Nat.div_small; lia.
  - assert ((n + b - 1) / b < S k)%nat; [|lia].
    apply Nat.Div0.div_lt_upper_bound. lia.
Qed.

Lemma take_batch (vs : list F) (i b : nat) :
  take (Nat.min (i + b) (length vs) - i) (drop i vs) = take b (drop i vs).
Proof.
  destruct (Nat.le_gt_cases (i + b) (length vs)) as [Hle|Hgt].
  - f_equal. lia.
  - rewrite !take_ge; [done| |]; rewrite length_drop; lia.
Qed.

(** The loop, entered at the start of batch [k] with enough fuel for the
    batches still to come. *)
Lemma transform_loop_run data (vs : list F) (b : nat) (fuel : nat) :
  (0 < b)%nat -> Z.of_nat b <= GoInt.int_max -> fits (length vs) ->
  forall (k : nat) transformed batches (st : state F),
  contents (heap st) data = Some vs ->
  (length vs - k * b <= fuel)%nat ->
  transform_loop fuel data (Z.of_nat b) (Z.of_nat (k * b)) transformed batches st =
  (Ok (transformed ++ (normalize <$> drop (k * b) vs),
       batches ++
       ((fun j => batch_summary (batch_at b vs j) (Z.of_nat j + 1)) <$>
        seq k (batch_count (length vs) b - k))),
   State (heap st) (map_orders st)
     (divisions st ++
      ((fun j => batch_division (batch_at b vs j)) <$>
       seq k (batch_count (length vs) b - k)))).
Proof.
  intros Hb Hmax Hfit. unfold fits, GoInt.int_max in *.
  assert (forall k transformed batches (st : state F) fuel,
    contents (heap st) data = Some vs -> (length vs <= k * b)%nat ->
    transform_loop fuel data (Z.of_nat b) (Z.of_nat (k * b)) transformed batches st =
    (Ok (transformed ++ (normalize <$> drop (k * b) vs),
         batches ++
         ((fun j => batch_summary (batch_at b vs j) (Z.of_nat j + 1)) <$>
          seq k (batch_count (length vs) b - k))),
     State (heap st) (map_orders st)
       (divisions st ++
        ((fun j => batch_division (batch_at b vs j)) <$>
         seq k (batch_count (length vs) b - k))))) as Hexit.
  { intros k transformed batches st fuel' Hc Hk.
    pose proof (contents_length _ _ _ Hc) as Hl.
    pose proof (batch_count_le _ _ _ Hb Hk) as Hm.
    replace (batch_count (length vs) b - k)%nat with 0%nat by lia.
    rewrite drop_ge by lia. cbn [seq fmap list_fmap]. rewrite !app_nil_r.
    destruct st as [h os ds]. cbn [heap map_orders divisions].
    destruct fuel'; cbn [transform_loop]; unfold len;
      replace (Z.of_nat (k * b) <? Z.of_nat (slen data)) with false
        by (symmetry; apply Z.ltb_ge; lia); reflexivity. }
  induction fuel as [|fuel IH]; intros k transformed batches st Hc Hfuel.
  { apply Hexit; [done|lia]. }
  destruct (Nat.le_gt_cases (length vs) (k * b)) as [Hdone|Hmore].
  { by apply Hexit. }
  pose proof (contents_length _ _ _ Hc) as Hl.
  pose proof (batch_count_gt _ _ _ Hb Hmore) as Hm.
  assert (b <= k * b \/ k = 0)%nat as Hkb by (destruct k; [by right|left; lia]).
  cbn [transform_loop]. unfold len.
  replace (Z.of_nat (k * b) <? Z.of_nat (slen data)) with true
    by (symmetry; apply Z.ltb_lt; lia).
  assert (GoInt.add (Z.of_nat (k * b)) (Z.of_nat b) = Z.of_nat (S k * b))
    as Hadd.
  { unfold GoInt.add. rewrite wrap64_id; [lia|].
    unfold GoInt.int_min, GoInt.int_max. lia. }
  rewrite Hadd.
  assert ((if Z.of_nat (S k * b) >? Z.of_nat (slen data)
           then Z.of_nat (slen data) else Z.of_nat (S k * b)) =
          Z.of_nat (Nat.min (k * b + b) (length vs))) as ->.
  { destruct (Z.gtb_spec (Z.of_nat (S k * b)) (Z.of_nat (slen data))); lia. }
  rewrite (bind_ok _ _ _ _ _
             (subslice_ok data st vs (k * b) (Nat.min (k * b + b) (length vs))
                Hc ltac:(lia))).
  replace (Z.of_nat b =? 0) with false by (symmetry; apply Z.eqb_neq; lia).
  unfold bind at 1. cbn [ret].
  assert (GoInt.quot (Z.of_nat (k * b)) (Z.of_nat b) = Z.of_nat k) as ->.
  { rewrite quot_of_nat by (unfold GoInt.int_max; lia).
    by rewrite Nat.div_mul by lia. }
  assert (GoInt.add (Z.of_nat k) 1 = Z.of_nat k + 1) as ->.
  { unfold GoInt.add. apply wrap64_id.
    unfold GoInt.int_min, GoInt.int_max. nia. }
  set (batch := Slice _ _ _ _).
  assert (contents (heap st) batch = Some (batch_at b vs k)) as Hbatch.
  { unfold batch, batch_at. rewrite <- take_batch.
    by apply contents_subslice; [|lia]. }
  rewrite (bind_ok _ _ _ _ _ (processBatch_ok _ _ _ _ Hbatch)).
  set (st1 := State _ _ _).
  assert (contents (heap st1) batch = Some (batch_at b vs k)) as Hbatch1
    by apply Hbatch.
  rewrite (bind_ok _ _ _ _ _ (read_ok _ _ _ Hbatch1)).
  rewrite foldl_normalize.
  rewrite (IH (S k) _ _ st1) by (done || lia).
  replace (batch_count (length vs) b - k)%nat
    with (S (batch_count (length vs) b - S k)) by lia.
  cbn [seq fmap list_fmap heap map_orders divisions st1].
  f_equal; [f_equal; f_equal|f_equal].
  - rewrite <- app_assoc. f_equal. rewrite <- fmap_app. f_equal.
    unfold batch_at. replace (S k * b)%nat with (k * b + b)%nat by lia.
    rewrite <- drop_drop. apply take_drop.
  - by rewrite <- app_assoc.
  - by rewrite <- app_assoc.
Qed.

(** What transformData returns and leaves behind for [batchSize >= 1]. *)
Lemma transformData_run (st : state F) data (batchSize : Z) vs :
  contents (heap st) data = Some vs ->
  1 <= batchSize <= GoInt.int_max -> fits (length vs) ->
  transformData data batchSize st =
  (Ok (<["type" := VString "transformation"]>
       (<["original_count" := VInt (Z.of_nat (length vs))]>
       (<["transformed" := VFloats (normalize <$> vs)]>
       (<["batch_results" := VMaps
            ((fun j => batch_summary (batch_at (Z.to_nat batchSize) vs j)
                         (Z.of_nat j + 1)) <$>
             seq 0 (batch_count (length vs) (Z.to_nat batchSize)))]>
       (<["batches_processed" :=
            VInt (Z.of_nat (batch_count (length vs) (Z.to_nat batchSize)))]>
        ∅))))),
   State (heap st) (map_orders st)
     (divisions st ++
      ((fun j => batch_division (batch_at (Z.to_nat batchSize) vs j)) <$>
       seq 0 (batch_count (length vs) (Z.to_nat batchSize))))).
Proof.
  intros Hc Hbs Hfit. unfold transformData.
  pose proof (contents_length _ _ _ Hc) as Hl.
  pose proof (transform_loop_run data vs (Z.to_nat batchSize) (slen data)
                ltac:(lia) ltac:(lia) Hfit 0 [] [] st Hc ltac:(lia)) as Hloop.
  rewrite Z2Nat.id in Hloop by lia. cbn [Nat.mul Z.of_nat] in Hloop.
  rewrite (bind_ok _ _ _ _ _ Hloop).
  rewrite drop_0, Nat.sub_0_r. cbn [app]. unfold len, ret.
  rewrite length_fmap, length_seq, <- Hl. reflexivity.
Qed.

Lemma batch_count_covers (n b : nat) :
  (0 < b)%nat -> (n <= batch_count n b * b)%nat.
Proof.
  intros Hb. unfold batch_count.
  pose proof (Nat.div_mod (n + b - 1) b ltac:(lia)).
  pose proof (Nat.mod_upper_bound (n + b - 1) b ltac:(lia)). nia.
Qed.

Lemma batch_count_inside (n b k : nat) :
  (0 < b)%nat -> (k < batch_count n b)%nat -> (k * b < n)%nat.
Proof.
  intros Hb Hk. destruct (Nat.le_gt_cases n (k * b)) as [Hle|]; [|done].
  pose proof (batch_count_le _ _ _ Hb Hle). lia.
Qed.

Lemma concat_batches (vs : list F) (b : nat) (c k : nat) :
  (length vs <= (k + c) * b)%nat ->
  concat (batch_at b vs <$> seq k c) = drop (k * b) vs.
Proof.
  revert k. induction c as [|c IH]; intros k Hk; cbn.
  - rewrite drop_ge; [done|lia].
  - rewrite IH by lia. unfold batch_at.
    replace (S k * b)%nat with (k * b + b)%nat by lia.
    rewrite <- drop_drop. apply take_drop.
Qed.

Lemma batch_at_length (vs : list F) (b k : nat) :
  length (batch_at b vs k) = Nat.min b (length vs - k * b).
Proof. unfold batch_at. by rewrite length_take, length_drop. Qed.

Lemma batch_count_Z (n : nat) (batchSize : Z) :
  1 <= batchSize ->
  Z.of_nat (batch_count n (Z.to_nat batchSize)) =
  (Z.of_nat n + batchSize - 1) / batchSize.
Proof.
  intros Hbs. unfold batch_count. rewrite Nat2Z.inj_div.
  rewrite Nat2Z.inj_sub, Nat2Z.inj_add, Z2Nat.id by lia. done.
Qed.

(** C5.  For [batchSize >= 1] transformData cuts the dataset into the
    consecutive batches [bl]: batch [k] (from 0) is the [batchSize] values
    from position [k * batchSize] on, together they make up the dataset,
    each but the last has [batchSize] values and the last has at least one;
    the batch results are their summaries, numbered from 1, and
    [batches_processed] is their number, the ceiling of
    [n / batchSize]. *)
Theorem transform_batches (st : state F) data (batchSize : Z) vs :
  contents (heap st) data = Some vs ->
  1 <= batchSize <= GoInt.int_max -> fits (length vs) ->
  exists r st' (bl : list (list F)),
    transformData data batchSize st = (Ok r, st') /\
    concat bl = vs /\
    (forall k batch, bl !! k = Some batch ->
       batch = take (Z.to_nat batchSize) (drop (k * Z.to_nat batchSize) vs) /\
       (1 <= length batch <= Z.to_nat batchSize)%nat /\
       (S k < length bl -> length batch = Z.to_nat batchSize)%nat /\
       batch_summary batch (Z.of_nat k + 1) !! "batch_number" =
         Some (VInt (Z.of_nat k + 1)) /\
       batch_summary batch (Z.of_nat k + 1) !! "size" =
         Some (VInt (Z.of_nat (length batch)))) /\
    r !! "batch_results" =
      Some (VMaps (imap (fun k batch => batch_summary batch (Z.of_nat k + 1)) bl)) /\
    r !! "batches_processed" = Some (VInt (Z.of_nat (length bl))) /\
    Z.of_nat (length bl) = (Z.of_nat (length vs) + batchSize - 1) / batchSize.
Proof.
  intros Hc Hbs Hfit.
  set (b := Z.to_nat batchSize). set (m := batch_count (length vs) b).
  assert (0 < b)%nat as Hb by (subst b; lia).
  eexists _, _, (batch_at b vs <$> seq 0 m).
  split; [by apply transformData_run|].
  split.
  { rewrite concat_batches; [apply drop_0|]. by apply batch_count_covers. }
  split.
  { intros k batch Hk. apply list_lookup_fmap_Some in Hk as (j & -> & Hj).
    apply lookup_seq in Hj as [-> Hlt]. cbn [Nat.add] in *.
    pose proof (batch_count_inside _ _ _ Hb Hlt) as Hin.
    rewrite length_fmap, length_seq.
    pose proof (batch_at_length vs b k) as Hlen.
    split; [done|]. split; [lia|]. split.
    { intros Hnext. pose proof (batch_count_inside _ _ (S k) Hb Hnext). lia. }
    unfold batch_summary. split; by lookup_field. }
  split.
  { lookup_field. do 2 f_equal. apply list_eq. intros i.
    rewrite list_lookup_imap, !list_lookup_fmap. fold b m.
    destruct (seq 0 m !! i) as [j|] eqn:Hj; cbn; [|done].
    apply lookup_seq in Hj as [-> _]. done. }
  split.
  { lookup_field. by rewrite length_fmap, length_seq. }
  rewrite length_fmap, length_seq. apply batch_count_Z. lia.
Qed.

End Transform.

Section TransformExact.
Local Open Scope Q_scope.

Lemma to_int_floor (y : Q) :
  0 <= y -> (Qfloor y <= GoInt.int_max)%Z -> ExactQ.to_int y = Qfloor y.
Proof.
  intros Hy Hmax. unfold ExactQ.to_int. destruct y as [n d].
  unfold Qle in Hy. cbn in *.
  rewrite Z.quot_div_nonneg by lia.
  assert (0 <= n / Z.pos d)%Z by (apply Z.div_pos; lia).
  unfold GoInt.in_range, GoInt.int_min.
  replace (- 2 ^ 63 <=? n / Z.pos d)%Z with true
    by (symmetry; apply Z.leb_le; lia).
  replace (n / Z.pos d <=? GoInt.int_max)%Z with true
    by (symmetry; by apply Z.leb_le).
  done.
Qed.





End TransformExact.

(** ** aggregateData *)

Section Aggregate.
Context {F : Type} `{Float64 F}.


Lemma count_value_bucket (ranges : gmap string Z) (v : F) :
  count_value ranges v = incr (bucket_of v) ranges.
Proof.
  unfold count_value, bucket_of.
  repeat (match goal with |- context [fle ?a ?b] => destruct (fle a b) end);
    reflexivity.
Qed.

Lemma bucket_of_in (v : F) : bucket_of v ∈ buckets.
Proof.
  unfold bucket_of, buckets.
  repeat (match goal with |- context [fle ?a ?b] => destruct (fle a b) end);
    set_solver.
Qed.

Lemma bucket_of_thresholds (v : F) :
  (bucket_of v = "0-25" <-> fle v (of_int 25) = true) /\
  (bucket_of v = "26-50" <->
     fle v (of_int 25) = false /\ fle v (of_int 50) = true) /\
  (bucket_of v = "51-75" <->
     fle v (of_int 25) = false /\ fle v (of_int 50) = false /\
     fle v (of_int 75) = true) /\
  (bucket_of v = "76-100" <->
     fle v (of_int 25) = false /\ fle v (of_int 50) = false /\
     fle v (of_int 75) = false /\ fle v (of_int 100) = true) /\
  (bucket_of v = "100+" <->
     fle v (of_int 25) = false /\ fle v (of_int 50) = false /\
     fle v (of_int 75) = false /\ fle v (of_int 100) = false).
Proof.
  unfold bucket_of.
  destruct (fle v (of_int 25)), (fle v (of_int 50)), (fle v (of_int 75)),
    (fle v (of_int 100)); intuition (discriminate || auto).
Qed.

Lemma count_of_incr (ranges : gmap string Z) (k' k : string) :
  count_of (incr k' ranges) k =
  if decide (k' = k) then GoInt.add (count_of ranges k) 1
  else count_of ranges k.
Proof.
  unfold count_of, incr. rewrite lookup_insert.
  case_decide; [by subst|done].
Qed.

Lemma count_in_cons (k : string) (v : F) vs :
  count_in k (v :: vs) =
  ((if decide (bucket_of v = k) then 1 else 0) + count_in k vs)%nat.
Proof.
  unfold count_in. rewrite filter_cons. by case_decide.
Qed.

Lemma foldl_count_value (vs : list F) (ranges : gmap string Z) :
  (forall k, 0 <= count_of ranges k /\
             count_of ranges k + Z.of_nat (length vs) <= GoInt.int_max) ->
  forall k, count_of (foldl count_value ranges vs) k =
            count_of ranges k + Z.of_nat (count_in k vs).
Proof.
  revert ranges. induction vs as [|v vs IH]; intros ranges Hr k.
  { cbn. lia. }
  cbn [foldl]. rewrite count_value_bucket.
  assert (forall k, count_of (incr (bucket_of v) ranges) k =
            count_of ranges k + (if decide (bucket_of v = k) then 1 else 0))
    as Hstep.
  { intros k'. rewrite count_of_incr. case_decide; [|lia].
    unfold GoInt.add. apply wrap64_id.
    destruct (Hr k'). unfold GoInt.int_min, GoInt.int_max in *.
    cbn [length] in *. lia. }
  rewrite IH.
  - rewrite Hstep, count_in_cons. case_decide; lia.
  - intros k'. rewrite Hstep. destruct (Hr k'). cbn [length] in *.
    case_decide; lia.
Qed.

Lemma foldl_count_value_dom (vs : list F) (ranges : gmap string Z) :
  (forall k, k ∈ buckets -> k ∈ dom ranges) ->
  dom (foldl count_value ranges vs) = dom ranges.
Proof.
  revert ranges. induction vs as [|v vs IH]; intros ranges Hr; [done|].
  cbn [foldl]. rewrite count_value_bucket.
  assert (dom (incr (bucket_of v) ranges) = dom ranges) as Hd.
  { unfold incr. rewrite dom_insert_L.
    apply subseteq_union_1_L, singleton_subseteq_l, Hr, bucket_of_in. }
  rewrite IH; [done|]. intros k Hk. rewrite Hd. by apply Hr.
Qed.

Lemma initial_ranges_dom : dom initial_ranges = list_to_set buckets.
Proof.
  unfold initial_ranges, buckets. rewrite !dom_insert_L, dom_empty_L.
  set_solver.
Qed.

Lemma initial_ranges_zero (k : string) : count_of initial_ranges k = 0.
Proof.
  unfold count_of, initial_ranges.
  repeat (rewrite lookup_insert; case_decide; [done|]).
  by rewrite lookup_empty.
Qed.

Lemma count_in_total (vs : list F) :
  (count_in "0-25" vs + count_in "26-50" vs + count_in "51-75" vs +
   count_in "76-100" vs + count_in "100+" vs)%nat = length vs.
Proof.
  induction vs as [|v vs IH]; [done|].
  rewrite !count_in_cons. cbn [length]. rewrite <- IH.
  pose proof (bucket_of_in v) as Hv. unfold buckets in Hv.
  repeat (apply elem_of_cons in Hv as [->|Hv]); [..|by apply elem_of_nil in Hv];
    repeat case_decide; try done; lia.
Qed.

(** The counts aggregateData ends with. *)
Lemma counted_ranges (vs : list F) :
  fits (length vs) ->
  dom (foldl count_value initial_ranges vs) = list_to_set buckets /\
  forall k, k ∈ buckets ->
    foldl count_value initial_ranges vs !! k = Some (Z.of_nat (count_in k vs)).
Proof.
  intros Hfit.
  assert (dom (foldl count_value initial_ranges vs) = list_to_set buckets)
    as Hdom.
  { rewrite foldl_count_value_dom; [apply initial_ranges_dom|].
    intros k Hk. rewrite initial_ranges_dom. set_solver. }
  split; [done|]. intros k Hk.
  pose proof (foldl_count_value vs initial_ranges) as Hc.
  specialize (Hc ltac:(intros k'; rewrite initial_ranges_zero;
    unfold fits, GoInt.int_max in *; lia) k).
  rewrite initial_ranges_zero in Hc. unfold count_of in Hc.
  assert (k ∈ dom (foldl count_value initial_ranges vs)) as Hin
    by (rewrite Hdom; set_solver).
  apply elem_of_dom in Hin as [c Hcnt]. rewrite Hcnt in *. cbn in Hc.
  f_equal. lia.
Qed.

(** *** Iterating over the map *)


Lemma omap_keys {V} (m : gmap string V) (l : list (string * V)) :
  (forall k v, (k, v) ∈ l -> m !! k = Some v) ->
  omap (fun k => (fun v => (k, v)) <$> m !! k) (l.*1) = l.
Proof.
  induction l as [|[k v] l IH]; intros Hl; cbn; [done|].
  rewrite (Hl k v) by left. cbn. f_equal. apply IH.
  intros k' v' Hin. apply Hl. by right.
Qed.

Lemma visit_order_perm {V} (o : list string) (m : gmap string V) :
  visit_order o m ≡ₚ map_to_list m.
Proof.
  unfold visit_order. case_decide as Ho; [|done].
  rewrite Ho. rewrite omap_keys; [done|].
  intros k v. apply elem_of_map_to_list.
Qed.

Lemma next_entries_perm {V} os (m : gmap string V) :
  next_entries os m ≡ₚ map_to_list m.
Proof. destruct os; [done|apply visit_order_perm]. Qed.

Lemma range_map_ok {V} (m : gmap string V) (st : state F) :
  range_map m st =
  (Ok (next_entries (map_orders st) m),
   State (heap st) (tail (map_orders st)) (divisions st)).
Proof. destruct st as [h [|o os] ds]; reflexivity. Qed.

(** *** The percentages *)


Lemma percentages_loop_ok total entries acc (st : state F) :
  percentages_loop total entries acc st =
  (Ok (foldl (fun acc kv => <[kv.1 := percentage total kv.2]> acc) acc entries),
   State (heap st) (map_orders st)
     (divisions st ++ ((fun kv => (of_int kv.2, of_int total)) <$> entries))).
Proof.
  revert acc st. induction entries as [|[k c] entries IH]; intros acc st.
  - cbn. rewrite app_nil_r. by destruct st.
  - cbn [percentages_loop]. unfold bind, fdiv_rt. rewrite IH.
    cbn [foldl fmap list_fmap heap map_orders divisions fst snd].
    by rewrite <- app_assoc.
Qed.

Lemma foldl_insert_union {V W} (f : V -> W) (l : list (string * V))
    (acc : gmap string W) :
  NoDup (l.*1) ->
  foldl (fun acc kv => <[kv.1 := f kv.2]> acc) acc l =
  list_to_map (prod_map id f <$> l) ∪ acc.
Proof.
  revert acc. induction l as [|[k v] l IH]; intros acc Hnd; cbn.
  - by rewrite (left_id_L ∅ (∪)).
  - apply NoDup_cons in Hnd as [Hk Hnd]. rewrite IH by done.
    rewrite <- insert_union_r; [by rewrite insert_union_l|].
    apply not_elem_of_list_to_map_1. rewrite <- list_fmap_compose.
    intros Hin. apply Hk. apply list_elem_of_fmap in Hin as ([k' v'] & -> & Hin).
    apply list_elem_of_fmap. by exists (k', v').
Qed.

Lemma foldl_insert_entries {V W} (f : V -> W) (m : gmap string V)
    (entries : list (string * V)) :
  entries ≡ₚ map_to_list m ->
  foldl (fun acc kv => <[kv.1 := f kv.2]> acc) ∅ entries = f <$> m.
Proof.
  intros Hp.
  assert (NoDup (entries.*1)) as Hnd
    by (rewrite Hp; apply NoDup_fst_map_to_list).
  rewrite foldl_insert_union by done. rewrite (right_id_L ∅ (∪)).
  rewrite list_to_map_fmap. f_equal.
  rewrite (list_to_map_proper _ _ Hnd Hp). apply list_to_map_to_list.
Qed.

(** *** The largest group *)


Lemma findLargestGroup_ok (ranges : gmap string Z) (st : state F) :
  findLargestGroup ranges st =
  (Ok (largest_of (next_entries (map_orders st) ranges)),
   State (heap st) (tail (map_orders st)) (divisions st)).
Proof.
  unfold findLargestGroup. by rewrite (bind_ok _ _ _ _ _ (range_map_ok _ _)).
Qed.

Lemma largest_none_greater (entries : list (string * Z)) (acc : Z * string) :
  (forall k c, (k, c) ∈ entries -> c <= acc.1) ->
  foldl largest_step acc entries = acc.
Proof.
  revert acc. induction entries as [|[k c] entries IH]; intros [mc mk] Hle;
    cbn; [done|].
  pose proof (Hle k c ltac:(left)) as Hc. cbn in Hc.
  replace (c >? mc) with false by (symmetry; rewrite Z.gtb_ltb; apply Z.ltb_ge; lia).
  apply IH. intros k' c' Hin. apply (Hle k' c'). by right.
Qed.


(** *** The whole operation *)

Lemma aggregateData_run (st : state F) data (batchSize : Z) vs :
  contents (heap st) data = Some vs ->
  let ranges := foldl count_value initial_ranges vs in
  let total := Z.of_nat (length vs) in
  aggregateData data batchSize st =
  (Ok (<["type" := VString "aggregation"]>
       (<["total_count" := VInt total]>
       (<["ranges" := VCounts ranges]>
       (<["percentages" := VPercentages (percentage total <$> ranges)]>
       (<["largest_group" :=
            VString (largest_of
                       (next_entries (tail (map_orders st)) ranges))]> ∅))))),
   State (heap st) (tail (tail (map_orders st)))
     (divisions st ++
      ((fun kv => (of_int kv.2, of_int total)) <$>
       next_entries (map_orders st) ranges))).
Proof.
  intros Hc ranges total. unfold aggregateData.
  rewrite (bind_ok _ _ _ _ _ (read_ok _ _ _ Hc)).
  unfold len. rewrite <- (contents_length _ _ _ Hc). fold ranges total.
  rewrite (bind_ok _ _ _ _ _ (range_map_ok _ _)).
  rewrite (bind_ok _ _ _ _ _ (percentages_loop_ok _ _ _ _)).
  rewrite (bind_ok _ _ _ _ _ (findLargestGroup_ok _ _)).
  cbn [heap map_orders divisions]. unfold ret.
  rewrite (foldl_insert_entries (percentage total) ranges)
    by apply next_entries_perm.
  reflexivity.
Qed.

Lemma initial_entries_zero os k c :
  (k, c) ∈ next_entries os initial_ranges -> c = 0.
Proof.
  rewrite next_entries_perm. intros Hin%elem_of_map_to_list.
  pose proof (initial_ranges_zero k) as Hz. unfold count_of in Hz.
  by rewrite Hin in Hz.
Qed.

Lemma initial_entries_length os :
  length (next_entries os initial_ranges) = 5%nat.
Proof.
  rewrite next_entries_perm, length_map_to_list. unfold initial_ranges.
  repeat (rewrite map_size_insert_None;
    [|by repeat (rewrite lookup_insert_ne by done)]).
  by rewrite map_size_empty.
Qed.

(** C6.  aggregateData puts every value in the one bucket [bucket_of]
    assigns it by the thresholds 25, 50, 75 and 100 (first match), counts
    the values of each of the five buckets, and the five counts add up to
    the length of the dataset, which is [total_count]. *)
Theorem aggregate_buckets (st : state F) data (batchSize : Z) vs :
  contents (heap st) data = Some vs -> fits (length vs) ->
  exists r st' ranges,
    aggregateData data batchSize st = (Ok r, st') /\
    r !! "ranges" = Some (VCounts ranges) /\
    r !! "total_count" = Some (VInt (Z.of_nat (length vs))) /\
    dom ranges = list_to_set buckets /\
    (forall k, k ∈ buckets -> ranges !! k = Some (Z.of_nat (count_in k vs))) /\
    (forall v,
       bucket_of v ∈ buckets /\
       (bucket_of v = "0-25" <-> fle v (of_int 25) = true) /\
       (bucket_of v = "26-50" <->
          fle v (of_int 25) = false /\ fle v (of_int 50) = true) /\
       (bucket_of v = "51-75" <->
          fle v (of_int 25) = false /\ fle v (of_int 50) = false /\
          fle v (of_int 75) = true) /\
       (bucket_of v = "76-100" <->
          fle v (of_int 25) = false /\ fle v (of_int 50) = false /\
          fle v (of_int 75) = false /\ fle v (of_int 100) = true) /\
       (bucket_of v = "100+" <->
          fle v (of_int 25) = false /\ fle v (of_int 50) = false /\
          fle v (of_int 75) = false /\ fle v (of_int 100) = false)) /\
    (count_in "0-25" vs + count_in "26-50" vs + count_in "51-75" vs +
     count_in "76-100" vs + count_in "100+" vs)%nat = length vs.
Proof.
  intros Hc Hfit. destruct (counted_ranges vs Hfit) as [Hdom Hcount].
  eexists _, _, _. split; [by apply aggregateData_run|].
  split; [by lookup_field|]. split; [by lookup_field|].
  split; [done|]. split; [done|]. split; [|apply count_in_total].
  intros v. split; [apply bucket_of_in|apply bucket_of_thresholds].
Qed.

(** C7.  On the empty dataset [total_count] is 0 and aggregateData goes
    on to compute the five percentages all the same: it performs five
    run-time divisions, each of [float64(0)] by [float64(0)], and returns
    normally with the percentages derived from those quotients. *)
Theorem aggregate_empty_divides_by_zero (st : state F) data (batchSize : Z) :
  contents (heap st) data = Some [] ->
  exists r st',
    aggregateData data batchSize st = (Ok r, st') /\
    r !! "total_count" = Some (VInt 0) /\
    divisions st' = divisions st ++ replicate 5 (of_int 0, of_int 0) /\
    r !! "percentages" =
      Some (VPercentages
              ((fun count =>
                  roundToTwo (fmul (fdiv (of_int count) (of_int 0)) (of_int 100)))
               <$> initial_ranges)).
Proof.
  intros Hc. eexists _, _. split; [by apply aggregateData_run|].
  split; [by lookup_field|]. split; [|by lookup_field].
  cbn [divisions foldl length Z.of_nat]. f_equal. symmetry.
  apply replicate_as_Forall. split.
  - rewrite length_fmap. apply initial_entries_length.
  - apply Forall_fmap, Forall_forall. intros [k c] Hin. cbn.
    by rewrite (initial_entries_zero _ _ _ Hin).
Qed.

(** C10.  On the empty dataset [largest_group] is the empty string,
    whatever the order in which the map is iterated: no count exceeds the
    initial [maxCount] of 0. *)
Theorem aggregate_empty_largest_group (st : state F) data (batchSize : Z) :
  contents (heap st) data = Some [] ->
  exists r st',
    aggregateData data batchSize st = (Ok r, st') /\
    r !! "largest_group" = Some (VString "") /\
    r !! "ranges" = Some (VCounts initial_ranges).
Proof.
  intros Hc. eexists _, _. split; [by apply aggregateData_run|].
  split; [|by lookup_field]. lookup_field. do 2 f_equal.
  cbn [foldl]. unfold largest_of. rewrite largest_none_greater; [done|].
  intros k c Hin. rewrite (initial_entries_zero _ _ _ Hin). done.
Qed.

End Aggregate.

(** ** Determinism *)

Section Determinism.
Context {F : Type} `{Float64 F}.






















(** C8.  The switch of [main] runs analyzeData for "analyze",
    transformData for "transform", aggregateData for "aggregate", and
    analyzeData again for every other tag. *)
Theorem dispatch_selects (operation : string) (rawData : slice)
    (batchSize : Z) :
  dispatch (F:=F) "analyze" rawData batchSize = analyzeData rawData batchSize /\
  dispatch (F:=F) "transform" rawData batchSize =
    transformData rawData batchSize /\
  dispatch (F:=F) "aggregate" rawData batchSize =
    aggregateData rawData batchSize /\
  dispatch (F:=F) operation rawData batchSize =
    (if decide (operation = "transform") then transformData rawData batchSize
     else if decide (operation = "aggregate")
          then aggregateData rawData batchSize
          else analyzeData rawData batchSize).
Proof.
  repeat split; try reflexivity. unfold dispatch.
  destruct (String.eqb_spec operation "analyze") as [->|Ha]; [done|].
  destruct (String.eqb_spec operation "transform") as [->|Ht]; [done|].
  rewrite decide_False by done.
  destruct (String.eqb_spec operation "aggregate") as [->|Hg]; [done|].
  by rewrite decide_False.
Qed.

End Determinism.

(** ** transformData always has fuel enough *)

Section Fuel.
Context {F : Type} `{Float64 F}.


Lemma returns_ret {A} (a : A) : returns (F:=F) (ret a).
Proof. by intros st. Qed.

Lemma returns_panic {A} msg : returns (F:=F) (panic (A:=A) msg).
Proof. by intros st. Qed.

Lemma returns_bind {A B} (c : M F A) (k : A -> M F B) :
  returns c -> (forall a, returns (F:=F) (k a)) -> returns (F:=F) (bind c k).
Proof.
  intros Hc Hk st. specialize (Hc st). unfold bind.
  destruct (c st) as [[a| |] st']; cbn in *; [apply Hk|done..].
Qed.

Lemma returns_read s : returns (F:=F) (read s).
Proof. intros st. unfold read. by destruct (contents (heap st) s). Qed.

Lemma returns_processBatch batch batchNum :
  returns (F:=F) (processBatch batch batchNum).
Proof.
  unfold processBatch. apply returns_bind; [apply returns_read|].
  intros vs. apply returns_bind; [by intros st|]. intros q.
  apply returns_ret.
Qed.

Lemma wrap64_add_fixed (i b : Z) :
  0 <= i <= GoInt.int_max -> GoInt.in_range b = true ->
  GoInt.add i b = i -> b = 0.
Proof.
  unfold GoInt.add, GoInt.wrap64, GoInt.in_range, GoInt.int_min, GoInt.int_max.
  intros Hi Hb Hw. apply andb_prop in Hb as [Hb1 Hb2].
  apply Z.leb_le in Hb1, Hb2.
  pose proof (Z.div_mod (i + b + 2 ^ 63) (2 ^ 64) ltac:(lia)) as Hdm.
  pose proof (Z.mod_pos_bound (i + b + 2 ^ 63) (2 ^ 64) ltac:(lia)).
  assert ((i + b + 2 ^ 63) / 2 ^ 64 = 0 \/ (i + b + 2 ^ 63) / 2 ^ 64 = 1)
    as [Hq|Hq]; [|lia..].
  assert (0 <= (i + b + 2 ^ 63) / 2 ^ 64) by (apply Z.div_pos; lia).
  assert ((i + b + 2 ^ 63) / 2 ^ 64 < 2); [|lia].
  apply Z.div_lt_upper_bound; lia.
Qed.

Lemma transform_loop_returns data (batchSize : Z) (fuel : nat) :
  GoInt.in_range batchSize = true -> len data <= GoInt.int_max ->
  forall i transformed batches,
    0 <= i -> (Z.to_nat (len data - i) <= fuel)%nat ->
    returns (F:=F) (transform_loop fuel data batchSize i transformed batches).
Proof.
  intros Hbs Hlen.
  induction fuel as [|fuel IH]; intros i transformed batches Hi Hfuel st;
    cbn [transform_loop]; destruct (Z.ltb_spec i (len data)) as [Hlt|Hge];
    try done; [lia|].
  unfold bind at 1. unfold subslice.
  destruct (_ && _) eqn:Hcond; [|done]. cbn [ret].
  apply andb_prop in Hcond as [Hcond _].
  apply andb_prop in Hcond as [_ Hend]. apply Z.leb_le in Hend.
  unfold bind at 1. destruct (Z.eqb_spec batchSize 0) as [->|Hnz]; [done|].
  cbn [ret].
  apply returns_bind; [apply returns_processBatch|]. intros batchResult.
  apply returns_bind; [apply returns_read|]. intros values.
  destruct (Z.gtb_spec (GoInt.add i batchSize) (len data)) as [Hgt|Hle].
  - apply IH; lia.
  - assert (GoInt.add i batchSize <> i) as Hne.
    { intros Heq. apply Hnz. apply (wrap64_add_fixed i); [lia|done..]. }
    apply IH; lia.
Qed.

(** Whatever the dataset and the batch size, transformData returns or
    panics: the fuel given to its loop never runs out. *)
Lemma transformData_returns data (batchSize : Z) :
  GoInt.in_range batchSize = true -> len data <= GoInt.int_max ->
  returns (F:=F) (transformData data batchSize).
Proof.
  intros Hbs Hlen. unfold transformData. apply returns_bind.
  - apply transform_loop_returns; try done. unfold len. lia.
  - intros [transformed batches]. apply returns_ret.
Qed.

End Fuel.

(** ** The properties at concrete datasets *)

Module Scenarios.
Import Datasets.


Lemma buckets_elem (k : string) :
  bool_decide (k ∈ buckets) = true -> k ∈ buckets.
Proof. apply bool_decide_eq_true_1. Qed.



Lemma transform_batches_witness :
  exists r,
    (transformData (whole (floats [10; 20; 30; 40])) 2
       (store (floats [10; 20; 30; 40]) [])).1 = Ok r /\
    r !! "batches_processed" = Some (VInt 2).
Proof.
  destruct (transform_batches (store (floats [10; 20; 30; 40]) [])
              (whole (floats [10; 20; 30; 40])) 2 (floats [10; 20; 30; 40]))
    as (r & st' & bl & Hrun & _ & _ & _ & Hn & Hlen).
  - reflexivity.
  - unfold GoInt.int_max. lia.
  - unfold fits. cbn. lia.
  - exists r. rewrite Hrun. split; [reflexivity|].
    rewrite Hn, Hlen. reflexivity.
Defined.


Lemma aggregate_buckets_witness :
  exists r ranges,
    (aggregateData (whole sample) 10 (store sample [])).1 = Ok r /\
    r !! "ranges" = Some (VCounts ranges) /\
    ranges !! "0-25" = Some 1 /\ ranges !! "26-50" = Some 1 /\
    ranges !! "51-75" = Some 1 /\ ranges !! "76-100" = Some 1 /\
    ranges !! "100+" = Some 1.
Proof.
  destruct (aggregate_buckets (store sample []) (whole sample) 10 sample)
    as (r & st' & ranges & Hrun & Hr & _ & _ & Hcount & _).
  - reflexivity.
  - unfold fits. cbn. lia.
  - exists r, ranges. rewrite Hrun. split; [reflexivity|]. split; [exact Hr|].
    repeat split; rewrite Hcount by (apply buckets_elem; reflexivity);
      reflexivity.
Defined.

Lemma aggregate_empty_divides_by_zero_witness :
  exists r st',
    aggregateData (whole ([] : list float)) 10
      (store ([] : list float) []) = (Ok r, st') /\
    r !! "total_count" = Some (VInt 0) /\
    divisions st' = replicate 5 (0%float, 0%float).
Proof.
  destruct (aggregate_empty_divides_by_zero (store ([] : list float) [])
              (whole ([] : list float)) 10)
    as (r & st' & Hrun & Ht & Hd & _).
  - reflexivity.
  - exists r, st'. split; [exact Hrun|]. split; [exact Ht|exact Hd].
Defined.

Lemma aggregate_empty_largest_group_witness :
  exists r,
    (aggregateData (whole ([] : list float)) 10
       (store ([] : list float) [buckets; buckets])).1 = Ok r /\
    r !! "largest_group" = Some (VString "").
Proof.
  destruct (aggregate_empty_largest_group
              (store ([] : list float) [buckets; buckets])
              (whole ([] : list float)) 10)
    as (r & st' & Hrun & Hl & _).
  - reflexivity.
  - exists r. rewrite Hrun. split; [reflexivity|exact Hl].
Defined.

(** In binary64 the quotient of the empty dataset's percentages is NaN. *)
Example zero_by_zero_is_nan :
  PrimFloat.is_nan (fdiv (of_int 0) (of_int 0)) = true.
Proof. reflexivity. Qed.

(** The dataset 10, 20, 30, 40 in batches of 2: two batches, the first with
    sum 30 and average 15, and the transformed values 1, 2, 3, 4. *)
Example transform_scenario :
  exists r b1 b2,
    (transformData (whole (floats [10; 20; 30; 40])) 2
       (store (floats [10; 20; 30; 40]) [])).1 = Ok r /\
    r !! "batches_processed" = Some (VInt 2) /\
    r !! "transformed" = Some (VFloats (floats [1; 2; 3; 4])) /\
    r !! "batch_results" = Some (VMaps [b1; b2]) /\
    b1 !! "batch_number" = Some (VInt 1) /\
    b1 !! "sum" = Some (VFloat 30%float) /\
    b1 !! "average" = Some (VFloat 15%float).
Proof.
  eexists _, _, _. split; [vm_compute; reflexivity|].
  repeat split; vm_compute; reflexivity.
Qed.

(** The dataset 1, 2, 3, 4, 5 analysed: mean 3, median 3, min 1, max 5,
    range 4; the store gains the sorted copy and keeps the dataset. *)
Example analyze_scenario :
  exists r st',
    analyzeData (whole (floats [3; 1; 2; 5; 4])) 10
      (store (floats [3; 1; 2; 5; 4]) []) = (Ok r, st') /\
    r !! "mean" = Some (VFloat 3%float) /\
    r !! "median" = Some (VFloat 3%float) /\
    r !! "min" = Some (VFloat 1%float) /\
    r !! "max" = Some (VFloat 5%float) /\
    r !! "range" = Some (VFloat 4%float) /\
    heap st' = [floats [3; 1; 2; 5; 4]; floats [1; 2; 3; 4; 5]].
Proof.
  eexists _, _. split; [vm_compute; reflexivity|].
  repeat split; vm_compute; reflexivity.
Qed.

(** A batch size of zero panics on the first batch; a negative one on the
    first slice expression. *)
Example transform_bad_batch_size :
  (transformData (whole (floats [10; 20])) 0 (store (floats [10; 20]) [])).1 =
    Panic "integer divide by zero" /\
  (transformData (whole (floats [10; 20])) (-1) (store (floats [10; 20]) [])).1 =
    Panic "slice bounds out of range".
Proof. split; vm_compute; reflexivity. Qed.

End Scenarios.

(** * Further properties *)

(** ** transformData and aggregateData do not write to the store *)

Section Untouched.
Context {F : Type} `{Float64 F}.

Lemma untouched_ret {A} (a : A) : untouched (F:=F) (ret a).
Proof. by intros st. Qed.

Lemma untouched_panic {A} msg : untouched (F:=F) (panic (A:=A) msg).
Proof. by intros st. Qed.

Lemma untouched_out_of_fuel {A} : untouched (F:=F) (out_of_fuel (A:=A)).
Proof. by intros st. Qed.

Lemma untouched_bind {A B} (c : M F A) (k : A -> M F B) :
  untouched c -> (forall a, untouched (k a)) -> untouched (bind c k).
Proof.
  intros Hc Hk st. specialize (Hc st). unfold bind.
  destruct (c st) as [[a| |] st']; cbn in *; [|done..].
  by rewrite Hk.
Qed.

Lemma untouched_read s : untouched (F:=F) (read s).
Proof. intros st. unfold read. by destruct (contents (heap st) s). Qed.

Lemma untouched_subslice s i j : untouched (F:=F) (subslice s i j).
Proof.
  unfold subslice.
  destruct (_ && _); [apply untouched_ret|apply untouched_panic].
Qed.

Lemma untouched_fdiv_rt (x y : F) : untouched (fdiv_rt x y).
Proof. by intros st. Qed.

Lemma untouched_range_map {V} (m : gmap string V) :
  untouched (F:=F) (range_map m).
Proof. intros st. unfold range_map. by destruct (map_orders st). Qed.

Lemma untouched_processBatch batch batchNum :
  untouched (F:=F) (processBatch batch batchNum).
Proof.
  unfold processBatch. apply untouched_bind; [apply untouched_read|].
  intros vs. apply untouched_bind; [apply untouched_fdiv_rt|]. intros q.
  apply untouched_ret.
Qed.

Lemma untouched_transform_loop fuel data batchSize i transformed batches :
  untouched (F:=F) (transform_loop fuel data batchSize i transformed batches).
Proof.
  revert i transformed batches.
  induction fuel as [|fuel IH]; intros i transformed batches;
    cbn [transform_loop]; destruct (i <? len data);
    try apply untouched_ret; [apply untouched_out_of_fuel|].
  apply untouched_bind; [apply untouched_subslice|]. intros batch.
  apply untouched_bind.
  { destruct (batchSize =? 0); [apply untouched_panic|apply untouched_ret]. }
  intros q. apply untouched_bind; [apply untouched_processBatch|].
  intros batchResult. apply untouched_bind; [apply untouched_read|].
  intros values. apply IH.
Qed.

Lemma untouched_percentages_loop total entries (acc : gmap string F) :
  untouched (percentages_loop total entries acc).
Proof.
  revert acc. induction entries as [|[k c] entries IH]; intros acc;
    cbn [percentages_loop]; [apply untouched_ret|].
  apply untouched_bind; [apply untouched_fdiv_rt|]. intros q. apply IH.
Qed.

Lemma untouched_findLargestGroup ranges :
  untouched (F:=F) (findLargestGroup ranges).
Proof.
  unfold findLargestGroup. apply untouched_bind; [apply untouched_range_map|].
  intros entries. apply untouched_ret.
Qed.

(** X1.  Whatever the dataset, the batch size and the outcome,
    transformData and aggregateData leave the store exactly as it was: they
    allocate nothing and write through no slice. *)
Theorem transform_aggregate_leave_store (st : state F) data (batchSize : Z) :
  heap (transformData data batchSize st).2 = heap st /\
  heap (aggregateData data batchSize st).2 = heap st.
Proof.
  split.
  - revert st. unfold transformData. apply untouched_bind;
      [apply untouched_transform_loop|].
    intros [transformed batches]. apply untouched_ret.
  - revert st. unfold aggregateData.
    apply untouched_bind; [apply untouched_read|]. intros values.
    apply untouched_bind; [apply untouched_range_map|]. intros entries.
    apply untouched_bind; [apply untouched_percentages_loop|].
    intros percentages.
    apply untouched_bind; [apply untouched_findLargestGroup|]. intros largest.
    apply untouched_ret.
Qed.

End Untouched.

(** ** transformData at its edges *)

Section TransformEdges.
Context {F : Type} `{Float64 F}.

(** X2.  On a non-empty dataset a batch size of zero makes transformData
    panic with an integer division by zero and a negative one with a slice
    out of bounds, both on the first batch: nothing has been processed and
    the state is as it was.  The loop is never entered a second time. *)
Theorem transform_rejects_batch_size (st : state F) data (batchSize : Z) :
  slen data <> 0%nat -> GoInt.in_range batchSize = true -> batchSize <= 0 ->
  transformData data batchSize st =
  (Panic (if batchSize =? 0 then "integer divide by zero"
          else "slice bounds out of range"), st).
Proof.
  intros Hn Hr Hbs. unfold transformData.
  destruct (slen data) as [|fuel] eqn:Hlen; [done|].
  assert (GoInt.add 0 batchSize = batchSize) as Hadd.
  { unfold GoInt.add. apply wrap64_id.
    unfold GoInt.in_range in Hr. apply andb_prop in Hr as [H1 H2].
    apply Z.leb_le in H1, H2. cbn [Z.add]. lia. }
  unfold bind at 1. cbn [transform_loop]. unfold len. rewrite Hlen.
  replace (0 <? Z.of_nat (S fuel)) with true
    by (symmetry; apply Z.ltb_lt; lia).
  rewrite Hadd.
  replace (batchSize >? Z.of_nat (S fuel)) with false
    by (symmetry; rewrite Z.gtb_ltb; apply Z.ltb_ge; lia).
  unfold bind at 1. unfold subslice.
  destruct (Z.eqb_spec batchSize 0) as [->|Hne].
  - cbn [Z.leb Z.compare andb]. 
    replace (0 <=? Z.of_nat (scap data)) with true
      by (symmetry; apply Z.leb_le; lia).
    reflexivity.
  - replace (0 <=? batchSize) with false by (symmetry; apply Z.leb_gt; lia).
    reflexivity.
Qed.

(** X3.  On the empty dataset transformData returns normally for every
    batch size, zero and negative ones included: no batch, no transformed
    value, and the state as it was. *)
Theorem transform_empty_dataset (st : state F) (b o c : nat) (batchSize : Z) :
  exists r,
    transformData (Slice b o 0 c) batchSize st = (Ok r, st) /\
    r !! "original_count" = Some (VInt 0) /\
    r !! "transformed" = Some (VFloats []) /\
    r !! "batch_results" = Some (VMaps []) /\
    r !! "batches_processed" = Some (VInt 0) /\
    r !! "type" = Some (VString "transformation") /\
    size r = 5%nat.
Proof.
  eexists. split; [reflexivity|].
  repeat (split; [by lookup_field|]).
  repeat (rewrite map_size_insert_None;
    [|by repeat (rewrite lookup_insert_ne by done)]).
  by rewrite map_size_empty.
Qed.

End TransformEdges.

(** ** roundToTwo in exact arithmetic *)

Section Rounding.
Local Open Scope Q_scope.

Lemma floor_plus_half (k : Z) : Qfloor (inject_Z k + (1 # 2)) = k.
Proof.
  unfold Qfloor, Qplus, inject_Z. cbn [Qnum Qden].
  change (Z.pos (1 * 2)) with 2%Z. Z.div_mod_to_equations. lia.
Qed.

Lemma roundToTwo_scaled_floor (x w : Q) :
  x * inject_Z 100 + inject_Z 1 / inject_Z 2 == w -> 0 <= w ->
  (Qfloor w <= GoInt.int_max)%Z ->
  roundToTwo x = inject_Z (Qfloor w) / inject_Z 100.
Proof.
  intros Hw H0 H1. unfold roundToTwo.
  cbn [fadd fmul fdiv of_int to_int exactQ].
  rewrite to_int_floor; rewrite Hw; done.
Qed.

Lemma to_int_ceiling (y : Q) :
  y <= 0 -> (GoInt.int_min <= Qceiling y)%Z -> ExactQ.to_int y = Qceiling y.
Proof.
  intros Hy Hmin. unfold ExactQ.to_int.
  assert (Z.quot (Qnum y) (Z.pos (Qden y)) = Qceiling y) as ->.
  { destruct y as [n d]. unfold Qle in Hy. cbn in Hy.
    unfold Qceiling, Qfloor, Qopp. cbn.
    rewrite <- (Z.opp_involutive n) at 1.
    rewrite Z.quot_opp_l by lia. f_equal.
    apply Z.quot_div_nonneg; lia. }
  assert (Qceiling y <= 0)%Z as Hc.
  { change 0%Z with (Qceiling 0). by apply Qceiling_resp_le. }
  unfold GoInt.in_range, GoInt.int_min, GoInt.int_max in *.
  replace (- 2 ^ 63 <=? Qceiling y)%Z with true
    by (symmetry; apply Z.leb_le; lia).
  replace (Qceiling y <=? 2 ^ 63 - 1)%Z with true
    by (symmetry; apply Z.leb_le; lia).
  done.
Qed.

(** X5.  On a value from 0 to 2^56 roundToTwo rounds to the nearest
    multiple of 0.01, halves up: it returns [floor(100 x + 1/2) / 100],
    which is within 0.005 of [x], and rounding the result again changes
    nothing. *)
Theorem roundToTwo_half_up (x : Q) :
  0 <= x <= inject_Z (2 ^ 56) ->
  roundToTwo x = inject_Z (Qfloor (x * 100 + (1 # 2))) / 100 /\
  x - (1 # 200) < roundToTwo x /\ roundToTwo x <= x + (1 # 200) /\
  roundToTwo (roundToTwo x) = roundToTwo x.
Proof.
  intros [H0 H1].
  change (inject_Z (2 ^ 56)) with (72057594037927936 # 1) in H1.
  set (w := x * 100 + (1 # 2)).
  assert (0 <= w) as Hw0 by (unfold w; lra).
  assert (0 <= Qfloor w <= 7205759403792793601)%Z as [Hf0 Hf1].
  { split.
    - change 0%Z with (Qfloor 0). by apply Qfloor_resp_le.
    - change 7205759403792793601%Z
        with (Qfloor (7205759403792793601 # 1)).
      apply Qfloor_resp_le. unfold w. lra. }
  assert (roundToTwo x = inject_Z (Qfloor w) / 100) as Hr.
  { apply roundToTwo_scaled_floor; [|done|unfold GoInt.int_max; lia].
    unfold w. change (inject_Z 100) with 100.
    change (inject_Z 1 / inject_Z 2) with (1 # 2). reflexivity. }
  pose proof (Qfloor_le w) as Hle. pose proof (Qlt_floor w) as Hlt.
  rewrite inject_Z_plus in Hlt. change (inject_Z 1) with 1 in Hlt.
  split; [done|]. rewrite Hr.
  split; [|split].
  - unfold Qdiv. change (/ 100) with (1 # 100). unfold w in *. lra.
  - unfold Qdiv. change (/ 100) with (1 # 100). unfold w in *. lra.
  - rewrite (roundToTwo_scaled_floor (inject_Z (Qfloor w) / 100)
               (inject_Z (Qfloor w) + (1 # 2))).
    + by rewrite floor_plus_half.
    + change (inject_Z 100) with 100.
      change (inject_Z 1 / inject_Z 2) with (1 # 2).
      unfold Qdiv. change (/ 100) with (1 # 100). ring.
    + rewrite Zle_Qle in Hf0. change (inject_Z 0) with 0 in Hf0. lra.
    + rewrite floor_plus_half. unfold GoInt.int_max. lia.
Qed.

(** X6.  On a value below -0.005 (down to -2^56) roundToTwo truncates
    toward zero after adding the half, so it never rounds down: the result
    is at least 0.005 and less than 0.015 above [x]. *)
Theorem roundToTwo_negative_rounds_up (x : Q) :
  - inject_Z (2 ^ 56) <= x -> x < - (1 # 200) ->
  x + (1 # 200) <= roundToTwo x /\ roundToTwo x < x + (3 # 200).
Proof.
  intros H0 H1.
  change (inject_Z (2 ^ 56)) with (72057594037927936 # 1) in H0.
  set (w := x * 100 + (1 # 2)).
  assert (w <= 0) as Hw0 by (unfold w; lra).
  pose proof (Qle_ceiling w) as Hle. pose proof (Qceiling_lt w) as Hlt.
  unfold Zminus in Hlt. rewrite inject_Z_plus in Hlt.
  change (inject_Z (Qceiling w) + (-1 # 1) < w) in Hlt.
  assert (-7205759403792793600 <= Qceiling w)%Z as Hc.
  { change (-7205759403792793600)%Z
      with (Qceiling (-7205759403792793600 # 1)).
    apply Qceiling_resp_le. unfold w. lra. }
  unfold roundToTwo. cbn [fadd fmul fdiv of_int to_int exactQ].
  change (inject_Z 100) with 100.
  change (inject_Z 1 / inject_Z 2) with (1 # 2). fold w.
  rewrite to_int_ceiling; [|done|unfold GoInt.int_min; lia].
  unfold Qdiv. change (/ 100) with (1 # 100). unfold w in *. split; lra.
Qed.

(** X7.  A whole number comes back unchanged when it is not negative and
    0.01 too high when it is negative: roundToTwo(-5) is -4.99. *)
Theorem roundToTwo_whole_number (z : Z) :
  (- 2 ^ 56 <= z <= 2 ^ 56)%Z ->
  roundToTwo (inject_Z z) ==
  if (z <? 0)%Z then inject_Z z + (1 # 100) else inject_Z z.
Proof.
  intros Hz. unfold roundToTwo. cbn [fadd fmul fdiv of_int to_int exactQ].
  unfold ExactQ.to_int.
  assert (Z.quot (Qnum (inject_Z z * inject_Z 100 + inject_Z 1 / inject_Z 2))
            (Z.pos (Qden (inject_Z z * inject_Z 100 + inject_Z 1 / inject_Z 2)))
          = if (z <? 0)%Z then (100 * z + 1)%Z else (100 * z)%Z) as ->.
  { cbn. destruct (Z.ltb_spec z 0); Z.quot_rem_to_equations; lia. }
  assert (GoInt.in_range
            (if (z <? 0)%Z then (100 * z + 1)%Z else (100 * z)%Z) = true)
    as ->.
  { unfold GoInt.in_range, GoInt.int_min, GoInt.int_max.
    apply andb_true_intro. rewrite !Z.leb_le.
    destruct (z <? 0)%Z; lia. }
  destruct (z <? 0)%Z; unfold Qeq, Qdiv, Qmult, Qplus, Qinv, inject_Z; cbn;
    lia.
Qed.

End Rounding.

(** ** More of analyzeData *)

Section AnalyzeMore.
Local Open Scope Q_scope.

Lemma median_of_between (sorted : list Q) m lo hi (i j : nat) :
  StronglySorted Qle sorted -> median_of sorted = Some m ->
  sorted !! i = Some lo -> sorted !! j = Some hi ->
  (i <= (length sorted - 1) / 2)%nat -> (length sorted / 2 <= j)%nat ->
  lo <= m <= hi.
Proof.
  intros Hs Hm Hlo Hhi Hi Hj. unfold median_of in Hm.
  pose proof (lookup_lt_Some _ _ _ Hhi) as Hlt.
  set (n := length sorted) in *.
  destruct (Nat.eqb_spec (n mod 2) 0) as [Hpar|Hpar].
  - destruct (sorted !! (n / 2 - 1)%nat) as [a|] eqn:Ha; [|done].
    destruct (sorted !! (n / 2)%nat) as [b|] eqn:Hb; [|done].
    injection Hm as <-. cbn. unfold Qdiv. change (/ inject_Z 2) with (1 # 2).
    pose proof (sorted_lookup_le _ i (n / 2 - 1) _ _ Hs ltac:(divlia) Hlo Ha).
    pose proof (sorted_lookup_le _ i (n / 2) _ _ Hs ltac:(divlia) Hlo Hb).
    pose proof (sorted_lookup_le _ (n / 2 - 1) j _ _ Hs ltac:(divlia) Ha Hhi).
    pose proof (sorted_lookup_le _ (n / 2) j _ _ Hs ltac:(divlia) Hb Hhi).
    split; lra.
  - split.
    + apply (sorted_lookup_le _ i (n / 2) _ _ Hs ltac:(divlia) Hlo Hm).
    + apply (sorted_lookup_le _ (n / 2) j _ _ Hs ltac:(divlia) Hm Hhi).
Qed.

(** X8.  On a non-empty dataset the order statistics analyzeData returns
    are dataset values in order: min <= percentile_25 <= median (before
    rounding) <= percentile_75 <= max; [range] is max - min and is not
    negative, and [count] is the length of the dataset. *)
Theorem analyze_order_statistics (st : state Q) data batchSize vs :
  contents (heap st) data = Some vs -> vs <> [] -> fits (length vs) ->
  exists r st' mn p25 m p75 mx,
    analyzeData data batchSize st = (Ok r, st') /\
    r !! "count" = Some (VInt (Z.of_nat (length vs))) /\
    r !! "min" = Some (VFloat mn) /\
    r !! "percentile_25" = Some (VFloat p25) /\
    r !! "median" = Some (VFloat (roundToTwo m)) /\
    r !! "percentile_75" = Some (VFloat p75) /\
    r !! "max" = Some (VFloat mx) /\
    r !! "range" = Some (VFloat (mx - mn)) /\
    median_of (sort_list vs) = Some m /\
    mn <= p25 /\ p25 <= m /\ m <= p75 /\ p75 <= mx /\
    p25 ∈ vs /\ p75 ∈ vs /\ 0 <= mx - mn.
Proof.
  intros Hc Hne Hfit.
  pose proof (sort_list_exact vs) as Hs.
  pose proof (sort_list_length vs) as Hlen.
  assert (0 < length vs)%nat as Hpos by (destruct vs; [done|cbn; lia]).
  destruct (lookup_lt_is_Some_2 (sort_list vs) 0) as [mn Hmn]; [lia|].
  destruct (lookup_lt_is_Some_2 (sort_list vs) (length vs - 1)) as [mx Hmx];
    [lia|].
  destruct (lookup_lt_is_Some_2 (sort_list vs) (length vs / 4)) as [p25 H25];
    [divlia|].
  destruct (lookup_lt_is_Some_2 (sort_list vs) (3 * length vs / 4))
    as [p75 H75]; [divlia|].
  destruct (median_of_defined (sort_list vs)) as (m & Hm & _).
  { intros Hnil. rewrite Hnil in Hlen. cbn in Hlen. lia. }
  destruct (median_of_between _ m p25 p75 _ _ Hs Hm H25 H75) as [Hlo Hhi];
    [rewrite Hlen; divlia..|].
  pose proof (sorted_lookup_le _ 0 (length vs / 4) _ _ Hs ltac:(lia) Hmn H25).
  pose proof (sorted_lookup_le _ (3 * length vs / 4) (length vs - 1) _ _ Hs
                ltac:(divlia) H75 Hmx).
  eexists _, _, mn, p25, m, p75, mx. split.
  { by apply (analyzeData_run st data batchSize vs mn mx m p25 p75). }
  do 7 (split; [by lookup_field|]).
  split; [done|]. do 4 (split; [done|]).
  split; [rewrite <- sort_list_perm; by eapply list_elem_of_lookup_2|].
  split; [rewrite <- sort_list_perm; by eapply list_elem_of_lookup_2|].
  lra.
Qed.

(** X9.  On a non-empty dataset analyzeData adds one array to the store,
    after those that were there: a sorted arrangement of the dataset; it
    consumes no iteration order. *)
Theorem analyze_sorted_copy (st : state Q) data batchSize vs :
  contents (heap st) data = Some vs -> vs <> [] -> fits (length vs) ->
  exists r st' sorted,
    analyzeData data batchSize st = (Ok r, st') /\
    heap st' = heap st ++ [sorted] /\
    sorted ≡ₚ vs /\ StronglySorted Qle sorted /\
    map_orders st' = map_orders st.
Proof.
  intros Hc Hne Hfit.
  pose proof (sort_list_length vs) as Hlen.
  assert (0 < length vs)%nat as Hpos by (destruct vs; [done|cbn; lia]).
  destruct (lookup_lt_is_Some_2 (sort_list vs) 0) as [mn Hmn]; [lia|].
  destruct (lookup_lt_is_Some_2 (sort_list vs) (length vs - 1)) as [mx Hmx];
    [lia|].
  destruct (lookup_lt_is_Some_2 (sort_list vs) (length vs / 4)) as [p25 H25];
    [divlia|].
  destruct (lookup_lt_is_Some_2 (sort_list vs) (3 * length vs / 4))
    as [p75 H75]; [divlia|].
  destruct (median_of_defined (sort_list vs)) as (m & Hm & _).
  { intros Hnil. rewrite Hnil in Hlen. cbn in Hlen. lia. }
  eexists _, _, (sort_list vs). split.
  { by apply (analyzeData_run st data batchSize vs mn mx m p25 p75). }
  split; [done|]. split; [apply sort_list_perm|].
  split; [apply sort_list_exact|done].
Qed.

(** X10.  The [sum] and [mean] fields agree up to the two roundings: with
    [n] values whose sum has magnitude at most 2^56,
    [-(1 + 3 n) / 200 < sum - n * mean < (3 + n) / 200]. *)
Theorem analyze_sum_mean (st : state Q) data batchSize vs :
  contents (heap st) data = Some vs -> vs <> [] -> fits (length vs) ->
  - inject_Z (2 ^ 56) <= foldl Qplus 0 vs <= inject_Z (2 ^ 56) ->
  exists r st' s mean,
    analyzeData data batchSize st = (Ok r, st') /\
    r !! "sum" = Some (VFloat s) /\ r !! "mean" = Some (VFloat mean) /\
    - (1 # 200) - (3 # 200) * inject_Z (Z.of_nat (length vs)) <
      s - inject_Z (Z.of_nat (length vs)) * mean /\
    s - inject_Z (Z.of_nat (length vs)) * mean <
      (3 # 200) + (1 # 200) * inject_Z (Z.of_nat (length vs)).
Proof.
  intros Hc Hne Hfit Hsum.
  pose proof (sort_list_length vs) as Hlen.
  assert (0 < length vs)%nat as Hpos by (destruct vs; [done|cbn; lia]).
  destruct (lookup_lt_is_Some_2 (sort_list vs) 0) as [mn Hmn]; [lia|].
  destruct (lookup_lt_is_Some_2 (sort_list vs) (length vs - 1)) as [mx Hmx];
    [lia|].
  destruct (lookup_lt_is_Some_2 (sort_list vs) (length vs / 4)) as [p25 H25];
    [divlia|].
  destruct (lookup_lt_is_Some_2 (sort_list vs) (3 * length vs / 4))
    as [p75 H75]; [divlia|].
  destruct (median_of_defined (sort_list vs)) as (m & Hm & _).
  { intros Hnil. rewrite Hnil in Hlen. cbn in Hlen. lia. }
  eexists _, _, _, _. split.
  { by apply (analyzeData_run st data batchSize vs mn mx m p25 p75). }
  split; [by lookup_field|]. split; [by lookup_field|].
  cbn [fadd fdiv of_int exactQ].
  change (inject_Z 0) with 0.
  set (total := foldl Qplus 0 vs) in *.
  set (q := inject_Z (Z.of_nat (length vs))).
  assert (1 <= q) as Hq.
  { unfold q. change 1 with (inject_Z 1). rewrite <- Zle_Qle. lia. }
  assert (q * (total / q) == total) as Hmean.
  { apply Qmult_div_r. intros H0. rewrite H0 in Hq. done. }
  set (mean := total / q) in *.
  change (inject_Z (2 ^ 56)) with (72057594037927936 # 1) in Hsum.
  destruct Hsum as [Hs0 Hs1].
  assert (- (72057594037927936 # 1) <= mean <= 72057594037927936 # 1)
    as Hmr.
  { destruct (Qlt_le_dec mean 0) as [Hneg|Hnn]; split; nra. }
  destruct (roundToTwo_exact_bounds total) as [Ht0 Ht1]; [by split|].
  destruct (roundToTwo_exact_bounds mean Hmr) as [Hm0 Hm1].
  split; nra.
Qed.

End AnalyzeMore.

(** ** More of transformData *)

Section TransformMore.
Context {F : Type} `{Float64 F}.

(** X11.  For [batchSize >= 1] processBatch is never handed an empty
    batch: transformData performs one run-time division per batch, and the
    divisor of each is [float64(k)] for a batch length [k] from 1 to
    [batchSize].  It consumes no iteration order. *)
Theorem transform_divides_by_batch_lengths (st : state F) data
    (batchSize : Z) vs :
  contents (heap st) data = Some vs ->
  1 <= batchSize <= GoInt.int_max -> fits (length vs) ->
  exists r st' ds,
    transformData data batchSize st = (Ok r, st') /\
    divisions st' = divisions st ++ ds /\
    map_orders st' = map_orders st /\
    length ds = batch_count (length vs) (Z.to_nat batchSize) /\
    forall x y, (x, y) ∈ ds ->
      exists k, y = of_int k /\ 1 <= k <= batchSize.
Proof.
  intros Hc Hbs Hfit. eexists _, _, _.
  split; [by apply transformData_run|].
  split; [done|]. split; [done|].
  split; [by rewrite length_fmap, length_seq|].
  intros x y Hin. apply list_elem_of_fmap in Hin as (j & Heq & Hj).
  apply elem_of_seq in Hj as [_ Hj]. cbn [Nat.add] in Hj.
  unfold batch_division in Heq. injection Heq as -> ->.
  eexists. split; [done|].
  assert (0 < Z.to_nat batchSize)%nat as Hb by lia.
  pose proof (batch_count_inside _ _ _ Hb Hj).
  rewrite batch_at_length. lia.
Qed.

End TransformMore.

(** ** More of aggregateData *)

Section AggregateMore.
Context {F : Type} `{Float64 F}.

Lemma largest_fold (entries : list (string * Z)) (acc : Z * string) :
  acc.1 <= (foldl largest_step acc entries).1 /\
  (forall k c, (k, c) ∈ entries -> c <= (foldl largest_step acc entries).1) /\
  (foldl largest_step acc entries = acc \/
   ((foldl largest_step acc entries).2,
    (foldl largest_step acc entries).1) ∈ entries).
Proof.
  revert acc. induction entries as [|[k c] entries IH]; intros [mc mk].
  { cbn. split; [lia|]. split; [|by left].
    intros k c Hin. by apply elem_of_nil in Hin. }
  cbn [foldl largest_step].
  destruct (Z.gtb_spec c mc) as [Hgt|Hle].
  - destruct (IH (c, k)) as (H1 & H2 & H3). cbn in H1.
    split; [cbn; lia|]. split.
    + intros k' c' Hin. apply elem_of_cons in Hin as [[= -> ->]|Hin];
        [done|by apply (H2 k')].
    + right. destruct H3 as [->|H3]; [left|by right].
  - destruct (IH (mc, mk)) as (H1 & H2 & H3). cbn in H1.
    split; [done|]. split.
    + intros k' c' Hin. apply elem_of_cons in Hin as [[= -> ->]|Hin];
        [lia|by apply (H2 k')].
    + destruct H3 as [H3|H3]; [by left|right; by right].
Qed.

(** X12.  On a non-empty dataset [largest_group] names a bucket that holds
    at least one value and no fewer than any other bucket, in whatever
    order the map is iterated. *)
Theorem aggregate_largest_is_maximal (st : state F) data (batchSize : Z) vs :
  contents (heap st) data = Some vs -> vs <> [] -> fits (length vs) ->
  exists r st' g,
    aggregateData data batchSize st = (Ok r, st') /\
    r !! "largest_group" = Some (VString g) /\
    g ∈ buckets /\ (0 < count_in g vs)%nat /\
    forall k, k ∈ buckets -> (count_in k vs <= count_in g vs)%nat.
Proof.
  intros Hc Hne Hfit. destruct (counted_ranges vs Hfit) as [Hdom Hcount].
  eexists _, _, _. split; [by apply aggregateData_run|].
  split; [by lookup_field|].
  unfold largest_of.
  set (entries := next_entries _ _).
  destruct (largest_fold entries (0, "")) as (H1 & H2 & H3).
  set (best := foldl largest_step (0, "") entries) in *.
  assert (forall k, k ∈ buckets -> Z.of_nat (count_in k vs) <= best.1) as Hall.
  { intros k Hk. apply (H2 k). unfold entries.
    rewrite next_entries_perm. apply elem_of_map_to_list. by apply Hcount. }
  assert (0 < length vs)%nat as Hpos by (destruct vs; [done|cbn; lia]).
  pose proof (count_in_total vs) as Htot.
  assert (0 < best.1) as Hbest.
  { pose proof (Hall "0-25" ltac:(unfold buckets; repeat constructor)).
    pose proof (Hall "26-50" ltac:(unfold buckets; repeat constructor)).
    pose proof (Hall "51-75" ltac:(unfold buckets; repeat constructor)).
    pose proof (Hall "76-100" ltac:(unfold buckets; repeat constructor)).
    pose proof (Hall "100+" ltac:(unfold buckets; repeat constructor)).
    lia. }
  destruct H3 as [H3|H3]; [rewrite H3 in Hbest; cbn in Hbest; lia|].
  unfold entries in H3. rewrite next_entries_perm in H3.
  apply elem_of_map_to_list in H3.
  assert (best.2 ∈ buckets) as Hg.
  { assert (best.2 ∈ dom (foldl count_value initial_ranges vs)) as Hd
      by (apply elem_of_dom; eauto).
    rewrite Hdom in Hd. by apply elem_of_list_to_set in Hd. }
  rewrite (Hcount _ Hg) in H3. injection H3 as H3.
  split; [done|]. split; [lia|].
  intros k Hk. specialize (Hall k Hk). lia.
Qed.

End AggregateMore.

Section AggregateExact.
Local Open Scope Q_scope.

Lemma percentage_exact (n c : nat) :
  (0 < n)%nat -> (c <= n)%nat -> fits n ->
  0 <= percentage (F:=Q) (Z.of_nat n) (Z.of_nat c) <= 100 /\
  inject_Z (Z.of_nat c) / inject_Z (Z.of_nat n) * 100 - (1 # 200) <
    percentage (F:=Q) (Z.of_nat n) (Z.of_nat c) /\
  percentage (F:=Q) (Z.of_nat n) (Z.of_nat c) <=
    inject_Z (Z.of_nat c) / inject_Z (Z.of_nat n) * 100 + (1 # 200).
Proof.
  intros Hn Hc Hfit. unfold percentage. cbn [fmul fdiv of_int exactQ].
  change (inject_Z 100) with 100.
  set (q := inject_Z (Z.of_nat n)). set (cq := inject_Z (Z.of_nat c)).
  assert (1 <= q) as Hq.
  { unfold q. change 1 with (inject_Z 1). rewrite <- Zle_Qle. lia. }
  assert (0 <= cq <= q) as [Hc0 Hc1].
  { unfold q, cq. change 0 with (inject_Z 0). rewrite <- !Zle_Qle. lia. }
  assert (q * (cq / q) == cq) as Hd.
  { apply Qmult_div_r. intros H0. rewrite H0 in Hq. done. }
  set (d := cq / q) in *.
  assert (0 <= d <= 1) as [Hd0 Hd1].
  { split.
    - destruct (Qlt_le_dec d 0); [nra|done].
    - destruct (Qlt_le_dec 1 d); [nra|done]. }
  destruct (roundToTwo_half_up (d * 100)) as (Hr & Hlo & Hhi & _).
  { change (inject_Z (2 ^ 56)) with (72057594037927936 # 1). split; lra. }
  split; [|split; [done|done]].
  rewrite Hr.
  assert (0 <= Qfloor (d * 100 * 100 + (1 # 2)) <= 10000)%Z as [Hf0 Hf1].
  { split.
    - change 0%Z with (Qfloor 0). apply Qfloor_resp_le. lra.
    - change 10000%Z with (Qfloor (10000 + (1 # 2))).
      apply Qfloor_resp_le. lra. }
  rewrite Zle_Qle in Hf0, Hf1.
  change (inject_Z 0) with 0 in Hf0. change (inject_Z 10000) with 10000 in Hf1.
  unfold Qdiv. change (/ 100) with (1 # 100). split; lra.
Qed.

(** X13.  On a non-empty dataset each of the five percentages is
    roundToTwo of [count / n * 100], lies in [0, 100] and is within 0.005
    of the unrounded share; the five add up to 100 within 0.025. *)
Theorem aggregate_percentages (st : state Q) data (batchSize : Z) vs :
  contents (heap st) data = Some vs -> vs <> [] -> fits (length vs) ->
  exists r st' p p1 p2 p3 p4 p5,
    aggregateData data batchSize st = (Ok r, st') /\
    r !! "percentages" = Some (VPercentages p) /\
    dom p = list_to_set buckets /\
    p !! "0-25" = Some p1 /\ p !! "26-50" = Some p2 /\
    p !! "51-75" = Some p3 /\ p !! "76-100" = Some p4 /\
    p !! "100+" = Some p5 /\
    (forall k x, p !! k = Some x ->
       x = roundToTwo (inject_Z (Z.of_nat (count_in k vs)) /
                       inject_Z (Z.of_nat (length vs)) * 100) /\
       0 <= x <= 100 /\
       inject_Z (Z.of_nat (count_in k vs)) /
         inject_Z (Z.of_nat (length vs)) * 100 - (1 # 200) < x /\
       x <= inject_Z (Z.of_nat (count_in k vs)) /
              inject_Z (Z.of_nat (length vs)) * 100 + (1 # 200)) /\
    100 - (1 # 40) < p1 + p2 + p3 + p4 + p5 /\
    p1 + p2 + p3 + p4 + p5 <= 100 + (1 # 40).
Proof.
  intros Hc Hne Hfit. destruct (counted_ranges vs Hfit) as [Hdom Hcount].
  assert (0 < length vs)%nat as Hpos by (destruct vs; [done|cbn; lia]).
  pose proof (count_in_total vs) as Htot.
  set (n := length vs) in *.
  assert (forall k, k ∈ buckets ->
            (percentage (F:=Q) (Z.of_nat n) <$>
             foldl count_value initial_ranges vs) !! k =
            Some (percentage (Z.of_nat n) (Z.of_nat (count_in k vs)))) as Hp.
  { intros k Hk. by rewrite lookup_fmap, (Hcount k Hk). }
  assert (forall k, k ∈ buckets -> (count_in k vs <= n)%nat) as Hle.
  { intros k Hk. unfold buckets in Hk.
    repeat (apply elem_of_cons in Hk as [->|Hk]); try lia.
    by apply elem_of_nil in Hk. }
  assert ("0-25" ∈ buckets) as Hb1 by (unfold buckets; repeat constructor).
  assert ("26-50" ∈ buckets) as Hb2 by (unfold buckets; repeat constructor).
  assert ("51-75" ∈ buckets) as Hb3 by (unfold buckets; repeat constructor).
  assert ("76-100" ∈ buckets) as Hb4 by (unfold buckets; repeat constructor).
  assert ("100+" ∈ buckets) as Hb5 by (unfold buckets; repeat constructor).
  eexists _, _, _, _, _, _, _, _.
  split; [by apply aggregateData_run|].
  split; [by lookup_field|].
  split; [by rewrite dom_fmap_L|].
  split; [by apply Hp|]. split; [by apply Hp|]. split; [by apply Hp|].
  split; [by apply Hp|]. split; [by apply Hp|].
  split.
  { intros k x Hx.
    assert (k ∈ buckets) as Hk.
    { assert (k ∈ dom (percentage (F:=Q) (Z.of_nat n) <$>
                       foldl count_value initial_ranges vs)) as Hd
        by (apply elem_of_dom; eauto).
      rewrite dom_fmap_L, Hdom in Hd. by apply elem_of_list_to_set in Hd. }
    fold n in Hx. rewrite (Hp k Hk) in Hx. injection Hx as <-.
    split; [reflexivity|]. by apply percentage_exact; [|apply Hle|]. }
  destruct (percentage_exact n (count_in "0-25" vs))
    as (_ & H1a & H1b); [done|by apply Hle|done|].
  destruct (percentage_exact n (count_in "26-50" vs))
    as (_ & H2a & H2b); [done|by apply Hle|done|].
  destruct (percentage_exact n (count_in "51-75" vs))
    as (_ & H3a & H3b); [done|by apply Hle|done|].
  destruct (percentage_exact n (count_in "76-100" vs))
    as (_ & H4a & H4b); [done|by apply Hle|done|].
  destruct (percentage_exact n (count_in "100+" vs))
    as (_ & H5a & H5b); [done|by apply Hle|done|].
  set (q := inject_Z (Z.of_nat n)) in *.
  assert (1 <= q) as Hq.
  { unfold q. change 1 with (inject_Z 1). rewrite <- Zle_Qle. lia. }
  assert (inject_Z (Z.of_nat (count_in "0-25" vs)) / q * 100 +
          inject_Z (Z.of_nat (count_in "26-50" vs)) / q * 100 +
          inject_Z (Z.of_nat (count_in "51-75" vs)) / q * 100 +
          inject_Z (Z.of_nat (count_in "76-100" vs)) / q * 100 +
          inject_Z (Z.of_nat (count_in "100+" vs)) / q * 100 == 100) as Hsum.
  { assert (q == inject_Z (Z.of_nat (count_in "0-25" vs)) +
                 inject_Z (Z.of_nat (count_in "26-50" vs)) +
                 inject_Z (Z.of_nat (count_in "51-75" vs)) +
                 inject_Z (Z.of_nat (count_in "76-100" vs)) +
                 inject_Z (Z.of_nat (count_in "100+" vs))) as Hqs.
    { unfold q. rewrite <- !inject_Z_plus, <- !Nat2Z.inj_add, Htot.
      reflexivity. }
    assert (~ q == 0) as Hq0 by (intros H0; rewrite H0 in Hq; done).
    transitivity
      ((inject_Z (Z.of_nat (count_in "0-25" vs)) +
        inject_Z (Z.of_nat (count_in "26-50" vs)) +
        inject_Z (Z.of_nat (count_in "51-75" vs)) +
        inject_Z (Z.of_nat (count_in "76-100" vs)) +
        inject_Z (Z.of_nat (count_in "100+" vs))) / q * 100);
      [field; exact Hq0|].
    rewrite <- Hqs. field. exact Hq0. }
  split; lra.
Qed.

End AggregateExact.
